(** * cryptokit: the Bitcoin transaction codec of [cryptokit/transaction.py]

    A shallow embedding of the [Transaction] class (disassemble, assemble,
    raw, hash, is_coinbase) together with the primitive codec it inherits
    from [BitcoinEncoding], and the properties of the wire format proved
    about it. *)

From Stdlib Require Import NArith ZArith List Bool Lia.
From Stdlib Require Import Strings.Byte.
From Stdlib Require Strings.String.
Import ListNotations.
Import String.StringSyntax.
Local Open Scope N_scope.
Delimit Scope string_scope with string.

(** ** Byte strings and exceptions *)

(** A Python [bytes] value. *)
Definition bytes := list byte.

(** The exceptions the codec can raise.  The names follow the error taxonomy
    of the design document; the Python exception each one stands for is given
    next to it. *)
Inductive exn : Type :=
| TruncatedInput        (* a fixed-width or varint read that runs short
                           (struct.error / IndexError in the primitive codec) *)
| MalformedTransaction  (* the AssertionError of [assert len(data) == 4] *)
| InvalidState          (* the IndexError of [self.inputs[0]] on an empty list *)
| TypeError             (* subscripting or hashing [None] *)
| StructError.          (* struct.error of [pack]: value out of range *)

Inductive result (A : Type) : Type :=
| Ok (a : A)
| Err (e : exn).
Arguments Ok {A} a.
Arguments Err {A} e.

Definition rbind {A B} (r : result A) (f : A -> result B) : result B :=
  match r with
  | Ok a => f a
  | Err e => Err e
  end.

(** ** Little-endian integers *)

Definition byte_of_N (n : N) : byte :=
  match Byte.of_N n with
  | Some b => b
  | None => x00
  end.

(** The [w] low-order bytes of [v], least significant first. *)
Fixpoint le_encode (w : nat) (v : N) : bytes :=
  match w with
  | O => []
  | S w' => byte_of_N (v mod 256) :: le_encode w' (v / 256)
  end.

Fixpoint le_decode (bs : bytes) : N :=
  match bs with
  | [] => 0
  | b :: bs' => Byte.to_N b + 256 * le_decode bs'
  end.

(** The two [struct] formats the transaction layout uses: ['<L'] and ['<Q']. *)
Inductive fmt : Type := fmt_L | fmt_Q.

Definition calcsize (f : fmt) : nat :=
  match f with
  | fmt_L => 4%nat
  | fmt_Q => 8%nat
  end.

(** Python's [struct.pack(fmt, v)]: raises [struct.error] when [v] does not
    fit the format. *)
Definition pack (f : fmt) (v : N) : result bytes :=
  if v <? 2 ^ (8 * N.of_nat (calcsize f))
  then Ok (le_encode (calcsize f) v)
  else Err StructError.

(** ** The primitive codec ([BitcoinEncoding]) *)

(** Modelled from the spec: [BitcoinEncoding.funpack] lives in
    [cryptokit/__init__.py], which is not among the sources.  The design
    document's [decode_fixed]: the little-endian value of the first [width]
    bytes, failing with [TruncatedInput] if the buffer is shorter than
    [width].  (The callers always pass a slice of at most [width] bytes.) *)
Definition funpack (f : fmt) (data : bytes) : result N :=
  if (length data <? calcsize f)%nat
  then Err TruncatedInput
  else Ok (le_decode (firstn (calcsize f) data)).

(** Reads [w] little-endian bytes off the front of [rest]. *)
Definition read_le (w : nat) (rest : bytes) : result (N * bytes) :=
  if (length rest <? w)%nat
  then Err TruncatedInput
  else Ok (le_decode (firstn w rest), skipn w rest).

(** Modelled from the spec: [BitcoinEncoding.varlen_decode] (same missing
    file).  The design document's [decode_varint]: a discriminant byte of
    0-252 is the value itself; one marker byte announces 2 little-endian
    bytes, another 4, another 8; [TruncatedInput] if fewer bytes remain than
    the selected width requires.  The marker bytes are those of the Bitcoin
    wire format ([0xfd], [0xfe], [0xff]), the three values left over by the
    direct tier. *)
Definition varlen_decode (data : bytes) : result (N * bytes) :=
  match data with
  | [] => Err TruncatedInput
  | b :: rest =>
      let d := Byte.to_N b in
      if d <? 253 then Ok (d, rest)
      else if d =? 253 then read_le 2 rest
      else if d =? 254 then read_le 4 rest
      else read_le 8 rest
  end.

(** Modelled from the spec: [BitcoinEncoding.varlen_encode] (same missing
    file).  The design document's [encode_varint]: the smallest of the four
    tiers that holds the value; defined on unsigned 64-bit integers, so a
    larger value is refused as [pack('<Q', ...)] would refuse it. *)
Definition varlen_encode (v : N) : result bytes :=
  if v <=? 252 then Ok [byte_of_N v]
  else if v <=? 65535 then Ok (xfd :: le_encode 2 v)
  else if v <=? 4294967295 then Ok (xfe :: le_encode 4 v)
  else if v <=? 18446744073709551615 then Ok (xff :: le_encode 8 v)
  else Err StructError.

(** ** The data model *)

Record Input : Type := mkInput {
  prevout_hash : bytes;
  prevout_idx : N;
  script_sig : bytes;
  seqno : N
}.

Record Output : Type := mkOutput {
  amount : N;
  script_pub_key : bytes
}.

(** The attributes of a [Transaction] object.  [None] in [_raw], [fees] and
    [_hash] is Python's [None]. *)
Record Transaction : Type := mkTransaction {
  _raw : option bytes;
  inputs : list Input;
  outputs : list Output;
  locktime : N;
  fees : option Z;
  version : N;
  _hash : option bytes
}.

(** ** Methods as state transformers

    A method runs on the object [self], may assign its attributes, and either
    returns a value or raises.  An exception does not undo the assignments
    made before it, so the final object is part of the outcome in both
    cases. *)
Definition M (A : Type) : Type := Transaction -> Transaction * result A.

Definition ret {A} (a : A) : M A := fun self => (self, Ok a).

Definition raise {A} (e : exn) : M A := fun self => (self, Err e).

Definition bind {A B} (m : M A) (f : A -> M B) : M B :=
  fun self =>
    match m self with
    | (self', Ok a) => f a self'
    | (self', Err e) => (self', Err e)
    end.

(** A computation without access to [self]. *)
Definition lift {A} (r : result A) : M A := fun self => (self, r).

Declare Scope tx_scope.
Delimit Scope tx_scope with tx.
Notation "x <- m ;; k" := (bind m (fun x => k))
  (at level 61, m at next level, right associativity) : tx_scope.
Notation "' pat <- m ;; k" := (bind m (fun x => match x with pat => k end))
  (at level 61, pat pattern, m at next level, right associativity) : tx_scope.
Notation "m ;; k" := (bind m (fun _ => k))
  (at level 61, right associativity) : tx_scope.
Local Open Scope tx_scope.

Definition when (b : bool) (m : M unit) : M unit :=
  if b then m else ret tt.

Definition set_raw (r : option bytes) : M unit := fun self =>
  (mkTransaction r (inputs self) (outputs self) (locktime self)
     (fees self) (version self) (_hash self), Ok tt).

Definition set_inputs (l : list Input) : M unit := fun self =>
  (mkTransaction (_raw self) l (outputs self) (locktime self)
     (fees self) (version self) (_hash self), Ok tt).

Definition set_outputs (l : list Output) : M unit := fun self =>
  (mkTransaction (_raw self) (inputs self) l (locktime self)
     (fees self) (version self) (_hash self), Ok tt).

Definition set_locktime (v : N) : M unit := fun self =>
  (mkTransaction (_raw self) (inputs self) (outputs self) v
     (fees self) (version self) (_hash self), Ok tt).

Definition set_fees (f : option Z) : M unit := fun self =>
  (mkTransaction (_raw self) (inputs self) (outputs self) (locktime self)
     f (version self) (_hash self), Ok tt).

Definition set_version (v : N) : M unit := fun self =>
  (mkTransaction (_raw self) (inputs self) (outputs self) (locktime self)
     (fees self) v (_hash self), Ok tt).

Definition set_hash (h : option bytes) : M unit := fun self =>
  (mkTransaction (_raw self) (inputs self) (outputs self) (locktime self)
     (fees self) (version self) h, Ok tt).

(** [self.inputs.append(i)] and [self.outputs.append(o)]. *)
Definition append_input (i : Input) : M unit := fun self =>
  set_inputs (inputs self ++ [i]) self.

Definition append_output (o : Output) : M unit := fun self =>
  set_outputs (outputs self ++ [o]) self.

(** Python truthiness of the optional arguments: [None] and the empty byte
    string are false, [None] and [0] are false. *)
Definition truthy_bytes (o : option bytes) : bool :=
  match o with
  | Some (_ :: _) => true
  | _ => false
  end.

Definition truthy_int (o : option Z) : bool :=
  match o with
  | Some z => negb (z =? 0)%Z
  | None => false
  end.

(** [data = self._raw] followed by the first subscript of [data]: [None] is
    not subscriptable. *)
Definition get_raw_data : M bytes := fun self =>
  match _raw self with
  | Some d => (self, Ok d)
  | None => (self, Err TypeError)
  end.

(** [assert cond]. *)
Definition assert (cond : bool) : M unit :=
  if cond then ret tt else raise MalformedTransaction.

(** ** [Transaction.disassemble] *)

(** The loop [for i in range(input_count)], on the running [data]. *)
Fixpoint inputs_loop (n : nat) (data : bytes) : M bytes :=
  match n with
  | O => ret data
  | S n' =>
      let prevout_hash := firstn 32 data in
      prevout_idx <- lift (funpack fmt_L (firstn 4 (skipn 32 data))) ;;
      '(ss_len, data) <- lift (varlen_decode (skipn 36 data)) ;;
      let script_sig := firstn (N.to_nat ss_len) data in
      seqno <- lift (funpack fmt_L
                       (firstn 4 (skipn (N.to_nat ss_len) data))) ;;
      let data := skipn (N.to_nat (ss_len + 4)) data in
      append_input (mkInput prevout_hash prevout_idx script_sig seqno) ;;
      inputs_loop n' data
  end.

(** The loop [for i in range(output_count)]. *)
Fixpoint outputs_loop (n : nat) (data : bytes) : M bytes :=
  match n with
  | O => ret data
  | S n' =>
      amount <- lift (funpack fmt_Q (firstn 8 data)) ;;
      '(ps_len, data) <- lift (varlen_decode (skipn 8 data)) ;;
      let pk_script := firstn (N.to_nat ps_len) data in
      let data := skipn (N.to_nat ps_len) data in
      append_output (mkOutput amount pk_script) ;;
      outputs_loop n' data
  end.

Definition disassemble (raw : option bytes) (dump_raw : bool)
    (fees : option Z) : M unit :=
  when (truthy_int fees) (set_fees fees) ;;
  when (truthy_bytes raw) (set_raw raw) ;;
  data <- get_raw_data ;;
  v <- lift (funpack fmt_L (firstn 4 data)) ;;
  set_version v ;;
  '(input_count, data) <- lift (varlen_decode (skipn 4 data)) ;;
  set_inputs [] ;;
  data <- inputs_loop (N.to_nat input_count) data ;;
  '(output_count, data) <- lift (varlen_decode data) ;;
  set_outputs [] ;;
  data <- outputs_loop (N.to_nat output_count) data ;;
  lt <- lift (funpack fmt_L (firstn 4 data)) ;;
  set_locktime lt ;;
  set_hash None ;;
  assert (length data =? 4)%nat ;;
  when dump_raw (set_raw None).

(** ** [Transaction.__init__] *)

(** The body of [__init__] on the new object: the six assignments of lines
    23-28, then the branch on [raw].  [self._hash] is assigned by the [else]
    branch, or on the other branch by [disassemble] once all its reads have
    succeeded; before that the attribute does not exist, which the record
    can only show as [None].  An outcome [Err] means the constructor has
    raised: no object reaches the caller, see [Transaction_new]. *)
Definition Transaction_init (raw : option bytes) : Transaction * result unit :=
  let self := mkTransaction raw [] [] 0 None 1 None in
  if truthy_bytes raw then disassemble None false None self
  else set_hash None self.

(** The call [Transaction(raw)] as the caller sees it: the constructed
    object, or the exception raised inside [__init__], in which case there
    is no object. *)
Definition Transaction_new (raw : option bytes) : result Transaction :=
  match Transaction_init raw with
  | (self, Ok _) => Ok self
  | (_, Err e) => Err e
  end.

(** ** [Transaction.is_coinbase] *)

Definition _nullprev : bytes := repeat x00 32.

Definition bytes_eqb (a b : bytes) : bool :=
  if list_eq_dec Byte.byte_eq_dec a b then true else false.

Definition is_coinbase (self : Transaction) : result bool :=
  match inputs self with
  | [] => Err InvalidState
  | i :: _ => Ok (bytes_eqb (prevout_hash i) _nullprev)
  end.

(** ** [Transaction.assemble] *)

(** The body of [for prevout_hash, prevout_idx, script_sig, seqno in
    self.inputs], appending to the local [data]. *)
Fixpoint assemble_inputs (l : list Input) (data : bytes) : result bytes :=
  match l with
  | [] => Ok data
  | i :: l' =>
      let data := data ++ prevout_hash i in
      rbind (pack fmt_L (prevout_idx i)) (fun p =>
      let data := data ++ p in
      rbind (varlen_encode (N.of_nat (length (script_sig i)))) (fun e =>
      let data := data ++ e in
      let data := data ++ script_sig i in
      rbind (pack fmt_L (seqno i)) (fun q =>
      let data := data ++ q in
      assemble_inputs l' data)))
  end.

Fixpoint assemble_outputs (l : list Output) (data : bytes) : result bytes :=
  match l with
  | [] => Ok data
  | o :: l' =>
      rbind (pack fmt_Q (amount o)) (fun p =>
      let data := data ++ p in
      rbind (varlen_encode (N.of_nat (length (script_pub_key o)))) (fun e =>
      let data := data ++ e in
      let data := data ++ script_pub_key o in
      assemble_outputs l' data))
  end.

(** The serialisation proper: everything up to [self._raw = data]. *)
Definition assemble_bytes (self : Transaction) : result bytes :=
  rbind (pack fmt_L (version self)) (fun data =>
  rbind (varlen_encode (N.of_nat (length (inputs self)))) (fun e =>
  let data := data ++ e in
  rbind (assemble_inputs (inputs self) data) (fun data =>
  rbind (varlen_encode (N.of_nat (length (outputs self)))) (fun e =>
  let data := data ++ e in
  rbind (assemble_outputs (outputs self) data) (fun data =>
  rbind (pack fmt_L (locktime self)) (fun p =>
  Ok (data ++ p))))))).

Definition assemble : M bytes :=
  data <- (fun self => (self, assemble_bytes self)) ;;
  set_raw (Some data) ;;
  set_hash None ;;
  ret data.

(** ** The [raw] and [hash] properties *)

(** [assemble] returns the buffer it has just stored in [_raw]. *)
Definition raw : M bytes := fun self =>
  match _raw self with
  | None => assemble self
  | Some data => (self, Ok data)
  end.

Section Hash.

(** [hashlib.sha256(data).digest()], an opaque library call.  Hashing
    [None] raises [TypeError]. *)
Variable sha256 : bytes -> bytes.

Definition sha256_digest (o : option bytes) : result bytes :=
  match o with
  | Some data => Ok (sha256 data)
  | None => Err TypeError
  end.

Definition hash : M bytes := fun self =>
  match _hash self with
  | None =>
      match sha256_digest (_raw self) with
      | Ok d =>
          let h := sha256 d in
          (fst (set_hash (Some h) self), Ok h)
      | Err e => (self, Err e)
      end
  | Some h => (self, Ok h)
  end.

End Hash.

(** ** Hexadecimal display, [to_dict] *)

(** One lower-case hexadecimal digit, as [binascii.hexlify] writes it. *)
Definition hex_digit (n : N) : byte :=
  if n <? 10 then byte_of_N (48 + n) else byte_of_N (87 + n).

Definition hex_byte (b : byte) : bytes :=
  [hex_digit (Byte.to_N b / 16); hex_digit (Byte.to_N b mod 16)].

(** [binascii.hexlify(data)] on a byte string. *)
Definition hexlify (data : bytes) : bytes := flat_map hex_byte data.

(** [hexlify] on an attribute that may be [None]: that raises [TypeError]. *)
Definition hexlify_attr (o : option bytes) : result bytes :=
  match o with
  | Some data => Ok (hexlify data)
  | None => Err TypeError
  end.

(** The Python values [to_dict] builds.  A dict display is kept as the list
    of its items in the order they are written. *)
#[warnings="-register-all"]
Inductive pyval : Type :=
| PyInt (n : N)
| PyBytes (b : bytes)
| PyList (l : list pyval)
| PyDict (items : list (String.string * pyval)).

(** [d[key]] on a dict value. *)
Fixpoint dict_get (key : String.string) (items : list (String.string * pyval))
  : option pyval :=
  match items with
  | [] => None
  | (k, v) :: items' =>
      if String.eqb k key then Some v else dict_get key items'
  end.

Definition input_view (inp : Input) : pyval :=
  PyDict [("prevout_hash"%string, PyBytes (hexlify (prevout_hash inp)));
          ("prevout_idx"%string, PyInt (prevout_idx inp));
          ("script_sig"%string, PyBytes (hexlify (script_sig inp)));
          ("seqno"%string, PyInt (seqno inp))].

Definition output_view (out : Output) : pyval :=
  PyDict [("amount"%string, PyInt (amount out));
          ("script_pub_key"%string, PyBytes (hexlify (script_pub_key out)))].

Section View.

Variable sha256 : bytes -> bytes.

(** [hexlify(self.hash[::-1])] and [hexlify(self.hash)]. *)
Definition lehexhash : M bytes :=
  h <- hash sha256 ;;
  ret (hexlify (rev h)).

Definition behexhash : M bytes :=
  h <- hash sha256 ;;
  ret (hexlify h).

(** The items of the dict display are evaluated in the order written:
    the views of the inputs and outputs, [hexlify(self._raw)], the lock
    time, the version, and last [self.lehexhash]. *)
Definition to_dict : M pyval :=
  ins <- (fun self => (self, Ok (map input_view (inputs self)))) ;;
  outs <- (fun self => (self, Ok (map output_view (outputs self)))) ;;
  data <- (fun self => (self, hexlify_attr (_raw self))) ;;
  lt <- (fun self => (self, Ok (locktime self))) ;;
  v <- (fun self => (self, Ok (version self))) ;;
  h <- lehexhash ;;
  ret (PyDict [("inputs"%string, PyList ins);
               ("outputs"%string, PyList outs);
               ("data"%string, PyBytes data);
               ("locktime"%string, PyInt lt);
               ("version"%string, PyInt v);
               ("hash"%string, PyBytes h)]).

End View.

(** ** Vocabulary of the statements *)

(** The width of the tier the design document assigns to a value: the
    discriminant byte alone, or a marker followed by 2, 4 or 8 bytes. *)
Definition tier_width (v : N) : nat :=
  if v <=? 252 then 1
  else if v <=? 65535 then 3
  else if v <=? 4294967295 then 5
  else 9.

(** One pass of the input loop without the final [append]: the record read
    at the head of [data] and the buffer left for the next pass. *)
Definition read_input (data : bytes) : result (Input * bytes) :=
  rbind (funpack fmt_L (firstn 4 (skipn 32 data))) (fun idx =>
  rbind (varlen_decode (skipn 36 data)) (fun '(ss_len, d) =>
  rbind (funpack fmt_L (firstn 4 (skipn (N.to_nat ss_len) d))) (fun sq =>
  Ok (mkInput (firstn 32 data) idx (firstn (N.to_nat ss_len) d) sq,
      skipn (N.to_nat (ss_len + 4)) d)))).

(** One pass of the output loop without the final [append]. *)
Definition read_output (data : bytes) : result (Output * bytes) :=
  rbind (funpack fmt_Q (firstn 8 data)) (fun amt =>
  rbind (varlen_decode (skipn 8 data)) (fun '(ps_len, d) =>
  Ok (mkOutput amt (firstn (N.to_nat ps_len) d), skipn (N.to_nat ps_len) d))).

(** The records [n] passes append, in order, and how the loop ends. *)
Fixpoint read_inputs (n : nat) (data : bytes) : list Input * result bytes :=
  match n with
  | O => ([], Ok data)
  | S n' =>
      match read_input data with
      | Ok (i, d) => let (l, r) := read_inputs n' d in (i :: l, r)
      | Err e => ([], Err e)
      end
  end.

Fixpoint read_outputs (n : nat) (data : bytes) : list Output * result bytes :=
  match n with
  | O => ([], Ok data)
  | S n' =>
      match read_output data with
      | Ok (o, d) => let (l, r) := read_outputs n' d in (o :: l, r)
      | Err e => ([], Err e)
      end
  end.

(** [d] is what is left of [data] after some prefix has been consumed. *)
Definition suffix_of (d data : bytes) : Prop := exists pre, data = pre ++ d.

(** The varint at the head of [data] is in minimal form: it takes as many
    bytes as [varlen_encode] spends on its value. *)
Definition canonical_varint (data : bytes) : bool :=
  match varlen_decode data with
  | Ok (v, rest) =>
      match varlen_encode v with
      | Ok enc => (length enc + length rest =? length data)%nat
      | Err _ => false
      end
  | Err _ => false
  end.

(** Every script-length varint met by [n] passes of the input loop is
    minimal. *)
Fixpoint canonical_inputs (n : nat) (data : bytes) : bool :=
  match n with
  | O => true
  | S n' =>
      canonical_varint (skipn 36 data) &&
      match read_input data with
      | Ok (_, d) => canonical_inputs n' d
      | Err _ => true
      end
  end.

Fixpoint canonical_outputs (n : nat) (data : bytes) : bool :=
  match n with
  | O => true
  | S n' =>
      canonical_varint (skipn 8 data) &&
      match read_output data with
      | Ok (_, d) => canonical_outputs n' d
      | Err _ => true
      end
  end.

(** Every count and length varint that [disassemble] reads from [data] is
    minimal: the input count, each input's script length, the output count
    and each output's script length. *)
Definition canonical_varints (data : bytes) : bool :=
  canonical_varint (skipn 4 data) &&
  match varlen_decode (skipn 4 data) with
  | Ok (n, d1) =>
      canonical_inputs (N.to_nat n) d1 &&
      match snd (read_inputs (N.to_nat n) d1) with
      | Ok d2 =>
          canonical_varint d2 &&
          match varlen_decode d2 with
          | Ok (m, d3) => canonical_outputs (N.to_nat m) d3
          | Err _ => true
          end
      | Err _ => true
      end
  | Err _ => true
  end.

(** The script of an input read from [data] is as declared: the record
    was read at some position [d] of the buffer, where the loop decoded the
    length [L], and its script is the [L] bytes that follow the varint. *)
Definition script_as_declared (data : bytes) (i : Input) : Prop :=
  exists d L rest,
    suffix_of d data /\
    prevout_hash i = firstn 32 d /\
    varlen_decode (skipn 36 d) = Ok (L, rest) /\
    N.of_nat (length (script_sig i)) = L /\
    script_sig i = firstn (N.to_nat L) rest.





(** The size of the smallest input on the wire (hash, index, one-byte
    script length, empty script, sequence number) and of the smallest
    output (amount, one-byte script length, empty script). *)
Definition min_input_size : nat := 41.
Definition min_output_size : nat := 9.

(** The integer fields of a record fit the widths [assemble] packs them
    in, and its script is short enough for a length varint. *)
Definition input_in_range (i : Input) : bool :=
  (prevout_idx i <? 2 ^ 32) && (seqno i <? 2 ^ 32) &&
  (N.of_nat (length (script_sig i)) <? 2 ^ 64).

Definition output_in_range (o : Output) : bool :=
  (amount o <? 2 ^ 64) &&
  (N.of_nat (length (script_pub_key o)) <? 2 ^ 64).

Definition fields_in_range (self : Transaction) : bool :=
  (version self <? 2 ^ 32) &&
  (N.of_nat (length (inputs self)) <? 2 ^ 64) &&
  forallb input_in_range (inputs self) &&
  (N.of_nat (length (outputs self)) <? 2 ^ 64) &&
  forallb output_in_range (outputs self) &&
  (locktime self <? 2 ^ 32).

(** Every previous-output hash has the 32 bytes of the wire layout. *)
Definition hashes_32 (self : Transaction) : bool :=
  forallb (fun i => (length (prevout_hash i) =? 32)%nat) (inputs self).

(** The script of an output read from [data] is as declared: the record
    was read at some position [d] of the buffer, where the loop decoded the
    length [L], and its script is the [L] bytes that follow the varint. *)
Definition pk_script_as_declared (data : bytes) (o : Output) : Prop :=
  exists d L rest,
    suffix_of d data /\
    amount o = le_decode (firstn 8 d) /\
    varlen_decode (skipn 8 d) = Ok (L, rest) /\
    N.of_nat (length (script_pub_key o)) = L /\
    script_pub_key o = firstn (N.to_nat L) rest.

(** The double SHA-256 of a buffer. *)
Definition double_sha256 (sha256 : bytes -> bytes) (data : bytes) : bytes :=
  sha256 (sha256 data).

(** The value of a hexadecimal digit written by [hex_digit]. *)
Definition unhex_digit (b : byte) : N :=
  if Byte.to_N b <? 58 then Byte.to_N b - 48 else Byte.to_N b - 87.

(** * Properties *)

(** ** Little-endian integers *)

Lemma byte_of_to_N (b : byte) : byte_of_N (Byte.to_N b) = b.
Proof. unfold byte_of_N. now rewrite Byte.of_to_N. Qed.

Lemma to_N_byte_of_N (n : N) : n < 256 -> Byte.to_N (byte_of_N n) = n.
Proof.
  intros Hn. unfold byte_of_N.
  destruct (Byte.of_N n) as [b|] eqn:E.
  - now apply Byte.to_of_N.
  - apply Byte.of_N_None_iff in E. lia.
Qed.

Lemma to_N_lt_256 (b : byte) : Byte.to_N b < 256.
Proof. pose proof (Byte.to_N_bounded b). lia. Qed.

Lemma to_N_inj (a b : byte) : Byte.to_N a = Byte.to_N b -> a = b.
Proof.
  intros H. rewrite <- (byte_of_to_N a), <- (byte_of_to_N b). now rewrite H.
Qed.

Lemma length_le_encode (w : nat) (v : N) : length (le_encode w v) = w.
Proof. revert v. induction w as [|w IH]; intros v; simpl; [reflexivity|]. now rewrite IH. Qed.

Lemma pow256_succ (w : nat) : 256 ^ N.of_nat (S w) = 256 * 256 ^ N.of_nat w.
Proof. rewrite Nat2N.inj_succ, N.pow_succ_r'. reflexivity. Qed.

Lemma le_decode_bound (bs : bytes) : le_decode bs < 256 ^ N.of_nat (length bs).
Proof.
  induction bs as [|b bs IH].
  - simpl. lia.
  - cbn [length le_decode]. rewrite pow256_succ.
    pose proof (to_N_lt_256 b). lia.
Qed.

Lemma le_decode_encode (w : nat) (v : N) :
  v < 256 ^ N.of_nat w -> le_decode (le_encode w v) = v.
Proof.
  revert v. induction w as [|w IH]; intros v Hv.
  - simpl in *. lia.
  - cbn [le_encode le_decode]. rewrite pow256_succ in Hv.
    assert (H256 : v mod 256 < 256) by (apply N.mod_lt; lia).
    rewrite to_N_byte_of_N by exact H256.
    rewrite IH.
    + pose proof (N.div_mod v 256). lia.
    + apply N.Div0.div_lt_upper_bound. exact Hv.
Qed.

Lemma le_encode_decode (bs : bytes) : le_encode (length bs) (le_decode bs) = bs.
Proof.
  induction bs as [|b bs IH]; [reflexivity|].
  cbn [length le_encode le_decode].
  pose proof (to_N_lt_256 b) as Hb.
  assert (Hm : (Byte.to_N b + 256 * le_decode bs) mod 256 = Byte.to_N b).
  { rewrite N.mul_comm, N.Div0.mod_add. now apply N.mod_small. }
  assert (Hd : (Byte.to_N b + 256 * le_decode bs) / 256 = le_decode bs).
  { rewrite N.mul_comm, N.div_add by lia. rewrite N.div_small by exact Hb. reflexivity. }
  rewrite Hm, Hd, byte_of_to_N, IH. reflexivity.
Qed.

(** ** The primitive codec *)

Lemma Ok_inj {A} (a b : A) : Ok a = Ok b -> a = b.
Proof. intros E. now injection E. Qed.

Lemma read_le_app (w : nat) (bs rest : bytes) :
  length bs = w -> read_le w (bs ++ rest) = Ok (le_decode bs, rest).
Proof.
  intros Hl. unfold read_le.
  rewrite length_app.
  destruct (Nat.ltb_spec (length bs + length rest) w) as [H|H]; [lia|].
  rewrite <- Hl, firstn_app, skipn_app, Nat.sub_diag, firstn_all, skipn_all.
  simpl. now rewrite app_nil_r.
Qed.

Lemma read_le_inv (w : nat) (data : bytes) (v : N) (rest : bytes) :
  read_le w data = Ok (v, rest) ->
  exists bs, data = bs ++ rest /\ length bs = w /\ v = le_decode bs.
Proof.
  unfold read_le. destruct (Nat.ltb_spec (length data) w) as [H|H]; [discriminate|].
  intros E. injection E as <- <-.
  exists (firstn w data). split; [now rewrite firstn_skipn|].
  split; [apply firstn_length_le; lia | reflexivity].
Qed.

(** The shape of every buffer [varlen_decode] accepts: an encoding [enc] of
    one to nine bytes, which decodes to the same value whatever follows. *)
Lemma varlen_decode_inv (data : bytes) (v : N) (rest : bytes) :
  varlen_decode data = Ok (v, rest) ->
  exists enc,
    data = enc ++ rest /\ (1 <= length enc <= 9)%nat /\ v < 2 ^ 64 /\
    forall r, varlen_decode (enc ++ r) = Ok (v, r).
Proof.
  destruct data as [|b d]; [discriminate|]. cbn [varlen_decode].
  pose proof (to_N_lt_256 b) as Hb.
  destruct (Byte.to_N b <? 253) eqn:H1.
  { intros E. apply Ok_inj in E. injection E as <- <-. exists [b].
    apply N.ltb_lt in H1.
    repeat split; cbn [length app]; try lia.
    intros r. cbn [varlen_decode]. apply N.ltb_lt in H1. now rewrite H1. }
  assert (Hfin : forall w, (w <= 8)%nat ->
    (forall r, varlen_decode (b :: r) = read_le w r) ->
    read_le w d = Ok (v, rest) ->
    exists enc, b :: d = enc ++ rest /\ (1 <= length enc <= 9)%nat /\
      v < 2 ^ 64 /\ forall r, varlen_decode (enc ++ r) = Ok (v, r)).
  { intros w Hw Hm E. apply read_le_inv in E as (bs & -> & Hl & ->).
    exists (b :: bs). cbn [length app]. repeat split; try lia.
    - pose proof (le_decode_bound bs) as Hbd.
      assert (Hp : 256 ^ N.of_nat (length bs) <= 256 ^ 8)
        by (apply N.pow_le_mono_r; lia).
      assert (He : 256 ^ 8 = 2 ^ 64) by reflexivity.
      lia.
    - intros r. rewrite Hm. now apply read_le_app. }
  destruct (Byte.to_N b =? 253) eqn:H2.
  { apply Hfin; [lia|]. intros r. cbn [varlen_decode]. now rewrite H1, H2. }
  destruct (Byte.to_N b =? 254) eqn:H3.
  { apply Hfin; [lia|]. intros r. cbn [varlen_decode]. now rewrite H1, H2, H3. }
  apply Hfin; [lia|]. intros r. cbn [varlen_decode]. now rewrite H1, H2, H3.
Qed.

Lemma le_encode_mod_byte (v : N) : v <= 252 -> Byte.to_N (byte_of_N v) = v.
Proof. intros H. apply to_N_byte_of_N. lia. Qed.

Lemma varlen_decode_xfd (d : bytes) : varlen_decode (xfd :: d) = read_le 2 d.
Proof. reflexivity. Qed.

Lemma varlen_decode_xfe (d : bytes) : varlen_decode (xfe :: d) = read_le 4 d.
Proof. reflexivity. Qed.

Lemma varlen_decode_xff (d : bytes) : varlen_decode (xff :: d) = read_le 8 d.
Proof. reflexivity. Qed.

Lemma read_le_encode (w : nat) (v : N) (rest : bytes) :
  v < 256 ^ N.of_nat w -> read_le w (le_encode w v ++ rest) = Ok (v, rest).
Proof.
  intros Hv. rewrite read_le_app by apply length_le_encode.
  now rewrite le_decode_encode.
Qed.

(** Decoding an encoded value gives it back and leaves what follows. *)
Lemma varlen_decode_encode (v : N) (enc rest : bytes) :
  varlen_encode v = Ok enc -> varlen_decode (enc ++ rest) = Ok (v, rest).
Proof.
  unfold varlen_encode.
  destruct (N.leb_spec v 252) as [H1|H1].
  { intros E. apply Ok_inj in E. subst enc. cbn [app varlen_decode].
    rewrite le_encode_mod_byte by exact H1.
    destruct (N.ltb_spec v 253); [reflexivity | lia]. }
  destruct (N.leb_spec v 65535) as [H2|H2].
  { intros E. apply Ok_inj in E. subst enc.
    rewrite <- app_comm_cons, varlen_decode_xfd. apply read_le_encode.
    assert (He : 256 ^ N.of_nat 2 = 65536) by reflexivity. lia. }
  destruct (N.leb_spec v 4294967295) as [H3|H3].
  { intros E. apply Ok_inj in E. subst enc.
    rewrite <- app_comm_cons, varlen_decode_xfe. apply read_le_encode.
    assert (He : 256 ^ N.of_nat 4 = 4294967296) by reflexivity. lia. }
  destruct (N.leb_spec v 18446744073709551615) as [H4|H4]; [|discriminate].
  intros E. apply Ok_inj in E. subst enc.
  rewrite <- app_comm_cons, varlen_decode_xff. apply read_le_encode.
  assert (He : 256 ^ N.of_nat 8 = 18446744073709551616) by reflexivity. lia.
Qed.

Lemma varlen_encode_total (v : N) :
  v < 2 ^ 64 -> exists enc, varlen_encode v = Ok enc /\ length enc = tier_width v.
Proof.
  intros Hv. unfold varlen_encode, tier_width.
  assert (He : 2 ^ 64 = 18446744073709551616) by reflexivity.
  destruct (N.leb_spec v 252); [eexists; split; reflexivity|].
  destruct (N.leb_spec v 65535); [eexists; split; reflexivity|].
  destruct (N.leb_spec v 4294967295); [eexists; split; reflexivity|].
  destruct (N.leb_spec v 18446744073709551615); [eexists; split; reflexivity|].
  lia.
Qed.

(** A buffer that decodes to [v] with nothing left over is at least as long
    as the encoder's output, and equal to it when of the same length. *)
Lemma varlen_encode_minimal (v : N) (enc bs : bytes) :
  varlen_encode v = Ok enc ->
  varlen_decode bs = Ok (v, []) ->
  (length enc <= length bs)%nat /\ (length bs = length enc -> bs = enc).
Proof.
  intros Henc Hdec.
  destruct bs as [|b d]; [discriminate|]. cbn [varlen_decode] in Hdec.
  pose proof (to_N_lt_256 b) as Hb.
  assert (E2 : 256 ^ N.of_nat 2 = 65536) by reflexivity.
  assert (E4 : 256 ^ N.of_nat 4 = 4294967296) by reflexivity.
  assert (E8 : 256 ^ N.of_nat 8 = 18446744073709551616) by reflexivity.
  destruct (N.ltb_spec (Byte.to_N b) 253) as [H1|H1].
  { injection Hdec as <- ->. unfold varlen_encode in Henc.
    destruct (N.leb_spec (Byte.to_N b) 252); [|lia].
    apply Ok_inj in Henc. subst enc. rewrite byte_of_to_N. split; [simpl; lia | reflexivity]. }
  destruct (N.eqb_spec (Byte.to_N b) 253) as [H2|H2].
  { apply read_le_inv in Hdec as (bs & -> & Hl & ->). rewrite app_nil_r.
    assert (b = xfd) as -> by (apply to_N_inj; exact H2).
    pose proof (le_decode_bound bs) as Hbd. rewrite Hl, E2 in Hbd.
    unfold varlen_encode in Henc.
    destruct (N.leb_spec (le_decode bs) 252).
    { apply Ok_inj in Henc. subst enc. simpl. split; lia. }
    destruct (N.leb_spec (le_decode bs) 65535); [|lia].
    apply Ok_inj in Henc. subst enc. rewrite <- Hl, le_encode_decode. split; [lia | reflexivity]. }
  destruct (N.eqb_spec (Byte.to_N b) 254) as [H3|H3].
  { apply read_le_inv in Hdec as (bs & -> & Hl & ->). rewrite app_nil_r.
    assert (b = xfe) as -> by (apply to_N_inj; exact H3).
    pose proof (le_decode_bound bs) as Hbd. rewrite Hl, E4 in Hbd.
    unfold varlen_encode in Henc.
    destruct (N.leb_spec (le_decode bs) 252).
    { apply Ok_inj in Henc. subst enc. simpl. split; lia. }
    destruct (N.leb_spec (le_decode bs) 65535).
    { apply Ok_inj in Henc. subst enc. cbn [length]. rewrite length_le_encode. split; lia. }
    destruct (N.leb_spec (le_decode bs) 4294967295); [|lia].
    apply Ok_inj in Henc. subst enc. rewrite <- Hl, le_encode_decode. split; [lia | reflexivity]. }
  apply read_le_inv in Hdec as (bs & -> & Hl & ->). rewrite app_nil_r.
  assert (b = xff) as -> by (apply to_N_inj; change (Byte.to_N xff) with 255; lia).
  pose proof (le_decode_bound bs) as Hbd. rewrite Hl, E8 in Hbd.
  unfold varlen_encode in Henc.
  destruct (N.leb_spec (le_decode bs) 252).
  { apply Ok_inj in Henc. subst enc. simpl. split; lia. }
  destruct (N.leb_spec (le_decode bs) 65535).
  { apply Ok_inj in Henc. subst enc. cbn [length]. rewrite length_le_encode. split; lia. }
  destruct (N.leb_spec (le_decode bs) 4294967295).
  { apply Ok_inj in Henc. subst enc. cbn [length]. rewrite length_le_encode. split; lia. }
  destruct (N.leb_spec (le_decode bs) 18446744073709551615); [|lia].
  apply Ok_inj in Henc. subst enc. rewrite <- Hl, le_encode_decode. split; [lia | reflexivity].
Qed.

(** C2.  For every unsigned 64-bit integer [v], [varlen_encode v] succeeds,
    decoding its output yields [v] with an empty remainder, the output has
    the width of the smallest of the four tiers that holds [v], and it is
    the one shortest byte sequence that decodes to [v]: any buffer decoding
    to [v] with nothing left is at least as long, and equal when as long. *)
Theorem varint_roundtrip_canonical (v : N) (Hv : v < 2 ^ 64) :
  exists enc,
    varlen_encode v = Ok enc /\
    varlen_decode enc = Ok (v, []) /\
    length enc = tier_width v /\
    forall bs, varlen_decode bs = Ok (v, []) ->
      (length enc <= length bs)%nat /\ (length bs = length enc -> bs = enc).
Proof.
  destruct (varlen_encode_total v Hv) as (enc & Henc & Hw).
  exists enc. split; [exact Henc|]. split.
  { rewrite <- (app_nil_r enc). now apply varlen_decode_encode. }
  split; [exact Hw|].
  intros bs Hbs. now apply varlen_encode_minimal with (v := v).
Qed.

Lemma varint_roundtrip_canonical_witness :
  300 < 2 ^ 64 /\
  exists enc,
    varlen_encode 300 = Ok enc /\
    varlen_decode enc = Ok (300, []) /\
    length enc = tier_width 300 /\
    forall bs, varlen_decode bs = Ok (300, []) ->
      (length enc <= length bs)%nat /\ (length bs = length enc -> bs = enc).
Proof.
  assert (H : 300 < 2 ^ 64) by reflexivity.
  split; [exact H | exact (varint_roundtrip_canonical 300 H)].
Defined.
(** ** The loops of [disassemble] *)

Lemma inputs_loop_S (n : nat) (data : bytes) (self : Transaction) :
  inputs_loop (S n) data self =
  match read_input data with
  | Ok (i, d) => inputs_loop n d (fst (append_input i self))
  | Err e => (self, Err e)
  end.
Proof.
  cbn [inputs_loop]. unfold read_input, bind, lift, rbind.
  destruct (funpack fmt_L (firstn 4 (skipn 32 data))) as [idx|e]; [|reflexivity].
  destruct (varlen_decode (skipn 36 data)) as [[L d]|e]; [|reflexivity].
  destruct (funpack fmt_L (firstn 4 (skipn (N.to_nat L) d))) as [sq|e];
    reflexivity.
Qed.

Lemma outputs_loop_S (n : nat) (data : bytes) (self : Transaction) :
  outputs_loop (S n) data self =
  match read_output data with
  | Ok (o, d) => outputs_loop n d (fst (append_output o self))
  | Err e => (self, Err e)
  end.
Proof.
  cbn [outputs_loop]. unfold read_output, bind, lift, rbind.
  destruct (funpack fmt_Q (firstn 8 data)) as [amt|e]; [|reflexivity].
  destruct (varlen_decode (skipn 8 data)) as [[L d]|e]; reflexivity.
Qed.

(** The input loop assigns nothing but [inputs], to which it appends the
    records of [read_inputs]. *)
Lemma inputs_loop_run (n : nat) (data : bytes) (self : Transaction) :
  inputs_loop n data self =
  (fst (set_inputs (inputs self ++ fst (read_inputs n data)) self),
   snd (read_inputs n data)).
Proof.
  revert data self. induction n as [|n IH]; intros data self.
  - destruct self. cbn. now rewrite app_nil_r.
  - rewrite inputs_loop_S. cbn [read_inputs].
    destruct (read_input data) as [[i d]|e].
    + rewrite IH. destruct (read_inputs n d) as [l r].
      destruct self. cbn. now rewrite <- app_assoc.
    + destruct self. cbn. now rewrite app_nil_r.
Qed.

Lemma outputs_loop_run (n : nat) (data : bytes) (self : Transaction) :
  outputs_loop n data self =
  (fst (set_outputs (outputs self ++ fst (read_outputs n data)) self),
   snd (read_outputs n data)).
Proof.
  revert data self. induction n as [|n IH]; intros data self.
  - destruct self. cbn. now rewrite app_nil_r.
  - rewrite outputs_loop_S. cbn [read_outputs].
    destruct (read_output data) as [[o d]|e].
    + rewrite IH. destruct (read_outputs n d) as [l r].
      destruct self. cbn. now rewrite <- app_assoc.
    + destruct self. cbn. now rewrite app_nil_r.
Qed.

(** ** [disassemble] *)

(** The method body with its monadic plumbing removed: each step that can
    raise, and the object as it stands at that step. *)
Lemma disassemble_eq (raw : option bytes) (dump_raw : bool) (f : option Z)
    (self : Transaction) :
  disassemble raw dump_raw f self =
  let s1 := if truthy_int f then fst (set_fees f self) else self in
  let s2 := if truthy_bytes raw then fst (set_raw raw s1) else s1 in
  match _raw s2 with
  | None => (s2, Err TypeError)
  | Some data =>
  match funpack fmt_L (firstn 4 data) with
  | Err e => (s2, Err e)
  | Ok v =>
  let s3 := fst (set_version v s2) in
  match varlen_decode (skipn 4 data) with
  | Err e => (s3, Err e)
  | Ok (n, d1) =>
  let s4 := fst (set_inputs (fst (read_inputs (N.to_nat n) d1)) s3) in
  match snd (read_inputs (N.to_nat n) d1) with
  | Err e => (s4, Err e)
  | Ok d2 =>
  match varlen_decode d2 with
  | Err e => (s4, Err e)
  | Ok (m, d3) =>
  let s5 := fst (set_outputs (fst (read_outputs (N.to_nat m) d3)) s4) in
  match snd (read_outputs (N.to_nat m) d3) with
  | Err e => (s5, Err e)
  | Ok d4 =>
  match funpack fmt_L (firstn 4 d4) with
  | Err e => (s5, Err e)
  | Ok lt =>
  let s6 := fst (set_hash None (fst (set_locktime lt s5))) in
  if (length d4 =? 4)%nat
  then (if dump_raw then fst (set_raw None s6) else s6, Ok tt)
  else (s6, Err MalformedTransaction)
  end end end end end end end.
Proof.
  unfold disassemble, bind, lift, when, assert, get_raw_data, ret, raise.
  destruct (truthy_int f); destruct (truthy_bytes raw); cbn [set_fees set_raw fst];
  match goal with |- context [_raw ?s] => destruct (_raw s) as [data|] eqn:Eraw end;
  try reflexivity;
  (destruct (funpack fmt_L (firstn 4 data)) as [v|e]; [|reflexivity];
   cbn [set_version];
   destruct (varlen_decode (skipn 4 data)) as [[n d1]|e]; [|reflexivity];
   cbn [set_inputs]; rewrite inputs_loop_run; cbn [inputs app fst snd];
   destruct (read_inputs (N.to_nat n) d1) as [ins [d2|e]]; [|reflexivity];
   cbn [fst snd];
   destruct (varlen_decode d2) as [[m d3]|e]; [|reflexivity];
   cbn [set_outputs]; rewrite outputs_loop_run; cbn [outputs app fst snd];
   destruct (read_outputs (N.to_nat m) d3) as [outs [d4|e]]; [|reflexivity];
   cbn [fst snd];
   destruct (funpack fmt_L (firstn 4 d4)) as [lt|e]; [|reflexivity];
   destruct (length d4 =? 4)%nat; destruct dump_raw; reflexivity).
Qed.
(** Splits the goal along every step of [disassemble]. *)
Ltac disassemble_cases :=
  rewrite disassemble_eq; cbv zeta;
  repeat match goal with
  | |- context [if ?b then _ else _] => destruct b eqn:?
  | |- context [match ?x with _ => _ end] => destruct x eqn:?
  end.

(** C10.  [disassemble] stores the [fees] argument only when it is truthy:
    with [fees=None] or [fees=0] the stored fee is the one the object had
    before the call, whether the call succeeds or raises; any other value
    replaces it. *)
Theorem disassemble_fees_truthy (raw : option bytes) (dump_raw : bool)
    (self : Transaction) :
  fees (fst (disassemble raw dump_raw None self)) = fees self /\
  fees (fst (disassemble raw dump_raw (Some 0%Z) self)) = fees self /\
  forall f, fees (fst (disassemble raw dump_raw f self)) =
            if truthy_int f then f else fees self.
Proof.
  assert (H : forall f, fees (fst (disassemble raw dump_raw f self)) =
                        if truthy_int f then f else fees self).
  { intros f. disassemble_cases; reflexivity. }
  split; [exact (H None)|]. split; [exact (H (Some 0%Z)) | exact H].
Qed.
(** *** The only exception of the reads is [TruncatedInput] *)

Lemma funpack_err (f : fmt) (data : bytes) (e : exn) :
  funpack f data = Err e -> e = TruncatedInput.
Proof.
  unfold funpack. destruct (length data <? calcsize f)%nat; congruence.
Qed.

Lemma read_le_err (w : nat) (data : bytes) (e : exn) :
  read_le w data = Err e -> e = TruncatedInput.
Proof.
  unfold read_le. destruct (length data <? w)%nat; congruence.
Qed.

Lemma varlen_decode_err (data : bytes) (e : exn) :
  varlen_decode data = Err e -> e = TruncatedInput.
Proof.
  destruct data as [|b d]; cbn [varlen_decode]; [congruence|].
  destruct (Byte.to_N b <? 253); [congruence|].
  destruct (Byte.to_N b =? 253); [apply read_le_err|].
  destruct (Byte.to_N b =? 254); apply read_le_err.
Qed.

Lemma read_input_err (data : bytes) (e : exn) :
  read_input data = Err e -> e = TruncatedInput.
Proof.
  unfold read_input, rbind.
  destruct (funpack fmt_L (firstn 4 (skipn 32 data))) eqn:E1;
    [|intros H; injection H as <-; eapply funpack_err; eassumption].
  destruct (varlen_decode (skipn 36 data)) as [[L d]|] eqn:E2;
    [|intros H; injection H as <-; eapply varlen_decode_err; eassumption].
  destruct (funpack fmt_L (firstn 4 (skipn (N.to_nat L) d))) eqn:E3;
    [discriminate|intros H; injection H as <-; eapply funpack_err; eassumption].
Qed.

Lemma read_output_err (data : bytes) (e : exn) :
  read_output data = Err e -> e = TruncatedInput.
Proof.
  unfold read_output, rbind.
  destruct (funpack fmt_Q (firstn 8 data)) eqn:E1;
    [|intros H; injection H as <-; eapply funpack_err; eassumption].
  destruct (varlen_decode (skipn 8 data)) as [[L d]|] eqn:E2;
    [discriminate|intros H; injection H as <-; eapply varlen_decode_err; eassumption].
Qed.

Lemma read_inputs_err (n : nat) (data : bytes) (e : exn) :
  snd (read_inputs n data) = Err e -> e = TruncatedInput.
Proof.
  revert data. induction n as [|n IH]; intros data; cbn [read_inputs].
  - discriminate.
  - destruct (read_input data) as [[i d]|e'] eqn:E.
    + specialize (IH d). destruct (read_inputs n d) as [l r]. exact IH.
    + cbn. intros H. injection H as <-. eapply read_input_err; eassumption.
Qed.

Lemma read_outputs_err (n : nat) (data : bytes) (e : exn) :
  snd (read_outputs n data) = Err e -> e = TruncatedInput.
Proof.
  revert data. induction n as [|n IH]; intros data; cbn [read_outputs].
  - discriminate.
  - destruct (read_output data) as [[o d]|e'] eqn:E.
    + specialize (IH d). destruct (read_outputs n d) as [l r]. exact IH.
    + cbn. intros H. injection H as <-. eapply read_output_err; eassumption.
Qed.

(** *** Failure *)

(** The same case analysis on a hypothesis about the outcome. *)
Ltac disassemble_inv H :=
  rewrite disassemble_eq in H; cbv zeta in H;
  repeat match type of H with
  | context [if ?b then _ else _] => destruct b eqn:?
  | context [match ?x with _ => _ end] => destruct x eqn:?
  end;
  inversion H; subst; clear H.








(** ** Slices *)

Lemma firstn_app_l {A} (n : nat) (l r : list A) :
  (n <= length l)%nat -> firstn n (l ++ r) = firstn n l.
Proof.
  intros H. rewrite firstn_app.
  replace (n - length l)%nat with 0%nat by lia.
  cbn [firstn]. apply app_nil_r.
Qed.

Lemma skipn_app_l {A} (n : nat) (l r : list A) :
  (n <= length l)%nat -> skipn n (l ++ r) = skipn n l ++ r.
Proof.
  intros H. rewrite skipn_app.
  replace (n - length l)%nat with 0%nat by lia. reflexivity.
Qed.

Lemma firstn_exact {A} (n : nat) (l r : list A) :
  length l = n -> firstn n (l ++ r) = l.
Proof. intros <-. rewrite firstn_app_l by lia. apply firstn_all. Qed.

Lemma skipn_exact {A} (n : nat) (l r : list A) :
  length l = n -> skipn n (l ++ r) = r.
Proof. intros <-. rewrite skipn_app_l by lia. now rewrite skipn_all. Qed.

(** ** Fixed-width reads *)

Lemma funpack_ok_length (f : fmt) (data : bytes) (v : N) :
  funpack f data = Ok v -> (calcsize f <= length data)%nat.
Proof.
  unfold funpack. destruct (Nat.ltb_spec (length data) (calcsize f));
    [discriminate | lia].
Qed.

(** A successful read of a slice [data[a:a+w]]: the slice is whole, and the
    value is its little-endian reading. *)
Lemma funpack_slice_inv (f : fmt) (a : nat) (data : bytes) (v : N) :
  funpack f (firstn (calcsize f) (skipn a data)) = Ok v ->
  (a + calcsize f <= length data)%nat /\
  v = le_decode (firstn (calcsize f) (skipn a data)) /\
  length (firstn (calcsize f) (skipn a data)) = calcsize f.
Proof.
  intros H. pose proof (funpack_ok_length _ _ _ H) as Hl.
  rewrite length_firstn, length_skipn in Hl.
  assert (Hpos : (0 < calcsize f)%nat) by (destruct f; cbn; lia).
  unfold funpack in H.
  destruct (length (firstn (calcsize f) (skipn a data)) <? calcsize f)%nat;
    [discriminate|].
  apply Ok_inj in H. rewrite firstn_firstn, Nat.min_id in H.
  split; [lia|]. split; [now symmetry|].
  rewrite length_firstn, length_skipn. lia.
Qed.

Lemma funpack_exact (f : fmt) (bs : bytes) :
  length bs = calcsize f -> funpack f bs = Ok (le_decode bs).
Proof.
  intros H. unfold funpack. rewrite H, Nat.ltb_irrefl.
  rewrite <- H, firstn_all. reflexivity.
Qed.

Lemma pack_decode (f : fmt) (bs : bytes) :
  length bs = calcsize f -> pack f (le_decode bs) = Ok bs.
Proof.
  intros H. unfold pack.
  pose proof (le_decode_bound bs) as Hb. rewrite H in Hb.
  assert (E : 2 ^ (8 * N.of_nat (calcsize f)) = 256 ^ N.of_nat (calcsize f)).
  { destruct f; reflexivity. }
  rewrite E. destruct (N.ltb_spec (le_decode bs) (256 ^ N.of_nat (calcsize f)));
    [|lia].
  rewrite <- H, le_encode_decode. reflexivity.
Qed.

(** ** One record on the wire *)

(** The layout of the bytes a successful input pass consumes. *)
Lemma read_input_inv (data : bytes) (i : Input) (d : bytes) :
  read_input data = Ok (i, d) ->
  exists idx enc sq,
    data = prevout_hash i ++ idx ++ enc ++ script_sig i ++ sq ++ d /\
    length (prevout_hash i) = 32%nat /\
    length idx = 4%nat /\ prevout_idx i = le_decode idx /\
    (1 <= length enc <= 9)%nat /\
    N.of_nat (length (script_sig i)) < 2 ^ 64 /\
    (forall r, varlen_decode (enc ++ r)
               = Ok (N.of_nat (length (script_sig i)), r)) /\
    length sq = 4%nat /\ seqno i = le_decode sq.
Proof.
  unfold read_input, rbind.
  destruct (funpack fmt_L (firstn 4 (skipn 32 data))) as [idx|] eqn:E1;
    [|discriminate].
  destruct (varlen_decode (skipn 36 data)) as [[L d0]|] eqn:E2; [|discriminate].
  destruct (funpack fmt_L (firstn 4 (skipn (N.to_nat L) d0))) as [sq|] eqn:E3;
    [|discriminate].
  apply (funpack_slice_inv fmt_L 32) in E1 as (Hl1 & -> & Hl1').
  apply (funpack_slice_inv fmt_L (N.to_nat L)) in E3 as (Hl3 & -> & Hl3').
  apply varlen_decode_inv in E2 as (enc & E2 & Hle & HL & Hdec).
  cbn [calcsize] in *.
  assert (Hh : length (firstn 32 data) = 32%nat)
    by (rewrite length_firstn; lia).
  assert (HlenS : length (firstn (N.to_nat L) d0) = N.to_nat L)
    by (rewrite length_firstn; lia).
  intros H. apply Ok_inj in H.
  assert (Hi : i = mkInput (firstn 32 data)
                     (le_decode (firstn 4 (skipn 32 data)))
                     (firstn (N.to_nat L) d0)
                     (le_decode (firstn 4 (skipn (N.to_nat L) d0))))
    by congruence.
  assert (Hd : d = skipn (N.to_nat (L + 4)) d0) by congruence.
  clear H. subst i d. cbn [prevout_hash prevout_idx script_sig seqno].
  exists (firstn 4 (skipn 32 data)), enc, (firstn 4 (skipn (N.to_nat L) d0)).
  split.
  { rewrite <- (firstn_skipn 32 data) at 1. f_equal.
    rewrite <- (firstn_skipn 4 (skipn 32 data)) at 1. f_equal.
    rewrite skipn_skipn. change (4 + 32)%nat with 36%nat. rewrite E2. f_equal.
    rewrite <- (firstn_skipn (N.to_nat L) d0) at 1. f_equal.
    rewrite <- (firstn_skipn 4 (skipn (N.to_nat L) d0)) at 1. f_equal.
    rewrite skipn_skipn. f_equal. lia. }
  rewrite HlenS, N2Nat.id.
  repeat split; try assumption; try lia; reflexivity.
Qed.

(** Conversely, bytes laid out that way are read as that record. *)
Lemma read_input_layout (h idx enc script sq d : bytes) (L : N) :
  length h = 32%nat -> length idx = 4%nat ->
  (forall r, varlen_decode (enc ++ r) = Ok (L, r)) ->
  length script = N.to_nat L -> length sq = 4%nat ->
  read_input (h ++ idx ++ enc ++ script ++ sq ++ d)
  = Ok (mkInput h (le_decode idx) script (le_decode sq), d).
Proof.
  intros Hh Hidx Hdec Hs Hsq. unfold read_input, rbind.
  assert (H36 : length (h ++ idx) = 36%nat) by (rewrite length_app; lia).
  assert (HL4 : length (script ++ sq) = N.to_nat (L + 4))
    by (rewrite length_app; lia).
  rewrite (skipn_exact 32 h _ Hh), (firstn_exact 4 idx _ Hidx).
  rewrite (funpack_exact fmt_L idx Hidx).
  rewrite (firstn_exact 32 h _ Hh).
  rewrite (app_assoc h idx), (skipn_exact 36 _ _ H36), Hdec.
  rewrite (skipn_exact _ script _ Hs), (firstn_exact 4 sq _ Hsq).
  rewrite (funpack_exact fmt_L sq Hsq).
  rewrite (firstn_exact _ script _ Hs).
  rewrite (app_assoc script sq), (skipn_exact _ _ _ HL4). reflexivity.
Qed.
(** The layout of the bytes a successful output pass consumes.  The script
    slice [d0[:L]] is taken without a length check, so it is stated as the
    slice it is. *)
Lemma read_output_inv (data : bytes) (o : Output) (d : bytes) :
  read_output data = Ok (o, d) ->
  exists amt enc L d0,
    data = amt ++ enc ++ d0 /\
    length amt = 8%nat /\ amount o = le_decode amt /\
    (1 <= length enc <= 9)%nat /\ L < 2 ^ 64 /\
    (forall r, varlen_decode (enc ++ r) = Ok (L, r)) /\
    script_pub_key o = firstn (N.to_nat L) d0 /\
    d = skipn (N.to_nat L) d0.
Proof.
  unfold read_output, rbind.
  destruct (funpack fmt_Q (firstn 8 data)) as [amt|] eqn:E1; [|discriminate].
  destruct (varlen_decode (skipn 8 data)) as [[L d0]|] eqn:E2; [|discriminate].
  apply (funpack_slice_inv fmt_Q 0) in E1 as (Hl1 & -> & Hl1').
  apply varlen_decode_inv in E2 as (enc & E2 & Hle & HL & Hdec).
  cbn [calcsize skipn] in *.
  intros H. apply Ok_inj in H.
  assert (Ho : o = mkOutput (le_decode (firstn 8 data)) (firstn (N.to_nat L) d0))
    by congruence.
  assert (Hd : d = skipn (N.to_nat L) d0) by congruence.
  clear H. subst o d. cbn [amount script_pub_key].
  exists (firstn 8 data), enc, L, d0.
  split.
  { rewrite <- (firstn_skipn 8 data) at 1. f_equal. exact E2. }
  repeat split; try assumption; try lia; reflexivity.
Qed.

Lemma read_output_layout (amt enc script d : bytes) (L : N) :
  length amt = 8%nat ->
  (forall r, varlen_decode (enc ++ r) = Ok (L, r)) ->
  length script = N.to_nat L ->
  read_output (amt ++ enc ++ script ++ d)
  = Ok (mkOutput (le_decode amt) script, d).
Proof.
  intros Ha Hdec Hs. unfold read_output, rbind.
  rewrite (firstn_exact 8 amt _ Ha), (funpack_exact fmt_Q amt Ha).
  rewrite (skipn_exact 8 amt _ Ha), Hdec.
  rewrite (firstn_exact _ script _ Hs), (skipn_exact _ script _ Hs).
  reflexivity.
Qed.

(** ** Declared counts against the bytes that remain *)

Lemma read_input_consumes (data : bytes) (i : Input) (d : bytes) :
  read_input data = Ok (i, d) ->
  (length d + min_input_size <= length data)%nat.
Proof.
  intros H. apply read_input_inv in H
    as (idx & enc & sq & -> & Hh & Hidx & _ & Henc & _ & _ & Hsq & _).
  repeat rewrite length_app. unfold min_input_size. lia.
Qed.

Lemma read_output_consumes (data : bytes) (o : Output) (d : bytes) :
  read_output data = Ok (o, d) ->
  (length d + min_output_size <= length data)%nat.
Proof.
  intros H. apply read_output_inv in H
    as (amt & enc & L & d0 & -> & Ha & _ & Henc & _ & _ & _ & ->).
  repeat rewrite length_app. rewrite length_skipn. unfold min_output_size. lia.
Qed.



Lemma varlen_decode_nonempty (data : bytes) (v : N) (rest : bytes) :
  varlen_decode data = Ok (v, rest) -> data <> [].
Proof. destruct data; [discriminate | congruence]. Qed.

Lemma skipn_nonempty {A} (n : nat) (l : list A) : skipn n l <> [] -> l <> [].
Proof. intros H ->. apply H. now rewrite skipn_nil. Qed.

Lemma truthy_bytes_nonempty (data : bytes) :
  data <> [] -> truthy_bytes (Some data) = true.
Proof. destruct data; [congruence | reflexivity]. Qed.

(** [disassemble] on a non-empty [raw] works on that buffer whatever the
    object held; this is the chain of reads it then performs, up to and
    including the input loop. *)
Lemma disassemble_inputs_fail (data : bytes) (dump_raw : bool) (f : option Z)
    (self : Transaction) (n : N) (d1 : bytes) (e : exn) :
  varlen_decode (skipn 4 data) = Ok (n, d1) ->
  snd (read_inputs (N.to_nat n) d1) = Err e ->
  snd (disassemble (Some data) dump_raw f self) = Err e /\
  inputs (fst (disassemble (Some data) dump_raw f self))
  = fst (read_inputs (N.to_nat n) d1).
Proof.
  intros Hn Hr.
  pose proof (varlen_decode_inv _ _ _ Hn) as (enc & Henc & Hle & _).
  assert (Hlen : (5 <= length data)%nat).
  { apply (f_equal (@length byte)) in Henc.
    rewrite length_skipn, length_app in Henc. lia. }
  assert (Ht : truthy_bytes (Some data) = true).
  { apply truthy_bytes_nonempty. destruct data; [cbn in Hlen; lia | congruence]. }
  assert (Hv : funpack fmt_L (firstn 4 data) = Ok (le_decode (firstn 4 data))).
  { apply funpack_exact. rewrite length_firstn. cbn [calcsize]. lia. }
  rewrite disassemble_eq. cbv zeta. rewrite Ht.
  destruct (truthy_int f); cbn [set_raw set_fees fst _raw];
    rewrite Hv, Hn, Hr; split; reflexivity.
Qed.





(** ** Script lengths of the inputs *)

(** A pass whose declared script length exceeds the bytes that remain
    fails: the slice for the sequence number comes out empty. *)
Lemma read_input_short_script (d : bytes) (L : N) (rest : bytes) :
  varlen_decode (skipn 36 d) = Ok (L, rest) ->
  (length rest < N.to_nat L)%nat ->
  read_input d = Err TruncatedInput.
Proof.
  intros Hdec Hlen. unfold read_input, rbind.
  destruct (funpack fmt_L (firstn 4 (skipn 32 d))) as [idx|e] eqn:E1.
  - rewrite Hdec. rewrite skipn_all2 by lia. reflexivity.
  - apply funpack_err in E1. now subst e.
Qed.

(** What a successful pass appends: a script of the declared length. *)
Lemma read_input_script_length (d : bytes) (i : Input) (d' : bytes) :
  read_input d = Ok (i, d') ->
  exists L rest,
    prevout_hash i = firstn 32 d /\
    varlen_decode (skipn 36 d) = Ok (L, rest) /\
    N.of_nat (length (script_sig i)) = L /\
    script_sig i = firstn (N.to_nat L) rest /\
    (N.to_nat L <= length rest)%nat.
Proof.
  unfold read_input, rbind.
  destruct (funpack fmt_L (firstn 4 (skipn 32 d))) as [idx|]; [|discriminate].
  destruct (varlen_decode (skipn 36 d)) as [[L rest]|]; [|discriminate].
  destruct (funpack fmt_L (firstn 4 (skipn (N.to_nat L) rest))) as [sq|] eqn:E3;
    [|discriminate].
  intros H. apply Ok_inj in H.
  assert (Hs : script_sig i = firstn (N.to_nat L) rest)
    by (apply (f_equal fst) in H; cbn [fst] in H; now subst i).
  assert (Hh : prevout_hash i = firstn 32 d)
    by (apply (f_equal fst) in H; cbn [fst] in H; now subst i).
  apply (funpack_slice_inv fmt_L (N.to_nat L)) in E3 as (Hl & _ & _).
  cbn [calcsize] in Hl.
  exists L, rest. split; [exact Hh|]. split; [reflexivity|].
  rewrite Hs, length_firstn. repeat split; lia.
Qed.

Lemma suffix_of_refl (d : bytes) : suffix_of d d.
Proof. now exists []. Qed.

Lemma suffix_of_trans (a b c : bytes) :
  suffix_of a b -> suffix_of b c -> suffix_of a c.
Proof.
  intros [p ->] [q ->]. exists (q ++ p). now rewrite app_assoc.
Qed.

Lemma read_input_suffix (d : bytes) (i : Input) (d' : bytes) :
  read_input d = Ok (i, d') -> suffix_of d' d.
Proof.
  intros H. apply read_input_inv in H as (idx & enc & sq & -> & _).
  exists (prevout_hash i ++ idx ++ enc ++ script_sig i ++ sq).
  now repeat rewrite <- app_assoc.
Qed.

Lemma read_inputs_script_lengths (n : nat) (data : bytes) :
  Forall (script_as_declared data) (fst (read_inputs n data)).
Proof.
  revert data. induction n as [|n IH]; intros data; cbn [read_inputs].
  - constructor.
  - destruct (read_input data) as [[i d]|e] eqn:E; [|constructor].
    specialize (IH d). destruct (read_inputs n d) as [l r]. cbn [fst] in *.
    constructor.
    + destruct (read_input_script_length _ _ _ E)
        as (L & rest & H0 & H1 & H2 & H3 & _).
      exists data, L, rest. split; [apply suffix_of_refl | now repeat split].
    + eapply Forall_impl; [|exact IH].
      intros j (d0 & L & rest & Hsuf & H0 & H1 & H2 & H3).
      exists d0, L, rest. split; [|now repeat split].
      eapply suffix_of_trans; [exact Hsuf|].
      eapply read_input_suffix; eassumption.
Qed.

(** A pass that fails after [k] good ones fails the whole loop. *)
Lemma read_inputs_fail_at (k n : nat) (data d : bytes) (e : exn) :
  (k < n)%nat ->
  snd (read_inputs k data) = Ok d ->
  read_input d = Err e ->
  snd (read_inputs n data) = Err e.
Proof.
  revert n data. induction k as [|k IH]; intros n data Hk Hrun Hfail.
  - cbn in Hrun. apply Ok_inj in Hrun. subst d.
    destruct n as [|n]; [lia|]. cbn [read_inputs]. now rewrite Hfail.
  - destruct n as [|n]; [lia|]. cbn [read_inputs] in *.
    destruct (read_input data) as [[i d0]|e0]; [|discriminate].
    specialize (IH n d0). destruct (read_inputs k d0) as [l r].
    destruct (read_inputs n d0) as [l' r']. cbn [snd] in *.
    apply IH; [lia | assumption | assumption].
Qed.

Lemma disassemble_inputs_read (data : bytes) (dump_raw : bool) (f : option Z)
    (self : Transaction) (n : N) (d1 : bytes) :
  varlen_decode (skipn 4 data) = Ok (n, d1) ->
  inputs (fst (disassemble (Some data) dump_raw f self))
  = fst (read_inputs (N.to_nat n) d1).
Proof.
  intros Hn.
  pose proof (varlen_decode_inv _ _ _ Hn) as (enc & Henc & Hle & _).
  assert (Hlen : (5 <= length data)%nat).
  { apply (f_equal (@length byte)) in Henc.
    rewrite length_skipn, length_app in Henc. lia. }
  assert (Ht : truthy_bytes (Some data) = true).
  { apply truthy_bytes_nonempty. destruct data; [cbn in Hlen; lia | congruence]. }
  assert (Hv : funpack fmt_L (firstn 4 data) = Ok (le_decode (firstn 4 data))).
  { apply funpack_exact. rewrite length_firstn. cbn [calcsize]. lia. }
  rewrite disassemble_eq. cbv zeta. rewrite Ht.
  destruct (truthy_int f); cbn [set_raw set_fees fst _raw];
    rewrite Hv, Hn;
    repeat match goal with
    | |- context [if ?b then _ else _] => destruct b
    | |- context [match ?x with _ => _ end] => destruct x
    end; reflexivity.
Qed.

(** C4.  In [disassemble], once the input count has been read: if at some
    pass of the input loop the script length [L] is decoded and fewer than
    [L] bytes remain, the call fails with [TruncatedInput]; and every Input
    the call leaves in [inputs] has a script of exactly the length decoded
    in front of it. *)
Theorem disassemble_input_script_length (data : bytes) (dump_raw : bool)
    (f : option Z) (self : Transaction) (n : N) (d1 : bytes)
    (Hcount : varlen_decode (skipn 4 data) = Ok (n, d1)) :
  (forall k s sk d L rest,
     (k < N.to_nat n)%nat ->
     inputs_loop k d1 s = (sk, Ok d) ->
     varlen_decode (skipn 36 d) = Ok (L, rest) ->
     (length rest < N.to_nat L)%nat ->
     snd (disassemble (Some data) dump_raw f self) = Err TruncatedInput) /\
  Forall (script_as_declared d1)
    (inputs (fst (disassemble (Some data) dump_raw f self))).
Proof.
  split.
  - intros k s sk d L rest Hk Hloop Hdec Hlen.
    rewrite inputs_loop_run in Hloop.
    apply (f_equal snd) in Hloop. cbn [snd] in Hloop.
    apply (disassemble_inputs_fail data dump_raw f self n d1); [exact Hcount|].
    eapply read_inputs_fail_at; [exact Hk | exact Hloop |].
    eapply read_input_short_script; eassumption.
  - rewrite (disassemble_inputs_read data dump_raw f self n d1 Hcount).
    apply read_inputs_script_lengths.
Qed.

Lemma disassemble_input_script_length_witness :
  let self := fst (Transaction_init None) in
  (* one input announcing a 5-byte script, 2 bytes left *)
  let d1 := repeat x00 36 ++ [x05; xaa; xbb] in
  let B1 := [x01; x00; x00; x00; x01] ++ d1 in
  (* one input with a 2-byte script, no output *)
  let d2 := repeat x00 36 ++ [x02; xaa; xbb; xff; xff; xff; xff]
            ++ [x00; x00; x00; x00; x00] in
  let B2 := [x01; x00; x00; x00; x01] ++ d2 in
  (varlen_decode (skipn 4 B1) = Ok (1, d1) /\
   inputs_loop 0 d1 self = (self, Ok d1) /\
   varlen_decode (skipn 36 d1) = Ok (5, [xaa; xbb]) /\
   snd (disassemble (Some B1) false None self) = Err TruncatedInput) /\
  (varlen_decode (skipn 4 B2) = Ok (1, d2) /\
   inputs (fst (disassemble (Some B2) false None self))
   = [mkInput (repeat x00 32) 0 [xaa; xbb] 4294967295] /\
   Forall (script_as_declared d2)
     (inputs (fst (disassemble (Some B2) false None self)))).
Proof.
  intros self d1 B1 d2 B2.
  assert (H1 : varlen_decode (skipn 4 B1) = Ok (1, d1)) by reflexivity.
  assert (H2 : varlen_decode (skipn 4 B2) = Ok (1, d2)) by reflexivity.
  assert (Hloop : inputs_loop 0 d1 self = (self, Ok d1)) by reflexivity.
  assert (Hdec : varlen_decode (skipn 36 d1) = Ok (5, [xaa; xbb]))
    by reflexivity.
  assert (Hk : (0 < N.to_nat 1)%nat) by (vm_compute; lia).
  assert (Hlen : (length [xaa; xbb] < N.to_nat 5)%nat) by (vm_compute; lia).
  split.
  - split; [exact H1|]. split; [exact Hloop|]. split; [exact Hdec|].
    exact (proj1 (disassemble_input_script_length B1 false None self 1 d1 H1)
             0%nat self self d1 5 [xaa; xbb] Hk Hloop Hdec Hlen).
  - split; [exact H2|]. split; [reflexivity|].
    exact (proj2 (disassemble_input_script_length B2 false None self 1 d2 H2)).
Defined.

(** ** Success of [disassemble] *)

(** What a successful call has read, and the object it leaves. *)
Lemma disassemble_ok_inv (raw : option bytes) (dump_raw : bool) (f : option Z)
    (self self' : Transaction) :
  disassemble raw dump_raw f self = (self', Ok tt) ->
  exists data v n d1 d2 m d3 d4 lt,
    (if truthy_bytes raw then raw else _raw self) = Some data /\
    funpack fmt_L (firstn 4 data) = Ok v /\
    varlen_decode (skipn 4 data) = Ok (n, d1) /\
    snd (read_inputs (N.to_nat n) d1) = Ok d2 /\
    varlen_decode d2 = Ok (m, d3) /\
    snd (read_outputs (N.to_nat m) d3) = Ok d4 /\
    funpack fmt_L (firstn 4 d4) = Ok lt /\
    length d4 = 4%nat /\
    self' = mkTransaction (if dump_raw then None else Some data)
              (fst (read_inputs (N.to_nat n) d1))
              (fst (read_outputs (N.to_nat m) d3))
              lt (if truthy_int f then f else fees self) v None.
Proof.
  intros H. rewrite disassemble_eq in H. cbv zeta in H.
  match type of H with
  | context [_raw ?s] => destruct (_raw s) as [data|] eqn:Eraw
  end; [|discriminate].
  destruct (funpack fmt_L (firstn 4 data)) as [v|] eqn:Ev; [|discriminate].
  destruct (varlen_decode (skipn 4 data)) as [[n d1]|] eqn:En; [|discriminate].
  destruct (snd (read_inputs (N.to_nat n) d1)) as [d2|] eqn:Ei; [|discriminate].
  destruct (varlen_decode d2) as [[m d3]|] eqn:Em; [|discriminate].
  destruct (snd (read_outputs (N.to_nat m) d3)) as [d4|] eqn:Eo; [|discriminate].
  destruct (funpack fmt_L (firstn 4 d4)) as [lt|] eqn:El; [|discriminate].
  destruct (Nat.eqb_spec (length d4) 4) as [E4|E4]; [|discriminate].
  exists data, v, n, d1, d2, m, d3, d4, lt.
  assert (Hs : self' = fst (self', @Ok unit tt)) by reflexivity.
  rewrite <- H in Hs. clear H. cbn [fst] in Hs.
  destruct (truthy_bytes raw) eqn:Hr; destruct (truthy_int f) eqn:Hf;
    destruct dump_raw; cbn in Eraw, Hs |- *;
    repeat split; try assumption; rewrite Hs; congruence.
Qed.

(** The reads that make a call on a non-empty [raw] end in the final
    assertion, and its outcome there. *)
Lemma disassemble_to_assert (data : bytes) (dump_raw : bool) (f : option Z)
    (self : Transaction) (v n : N) (d1 d2 : bytes) (m : N) (d3 d4 : bytes)
    (lt : N) :
  data <> [] ->
  funpack fmt_L (firstn 4 data) = Ok v ->
  varlen_decode (skipn 4 data) = Ok (n, d1) ->
  snd (read_inputs (N.to_nat n) d1) = Ok d2 ->
  varlen_decode d2 = Ok (m, d3) ->
  snd (read_outputs (N.to_nat m) d3) = Ok d4 ->
  funpack fmt_L (firstn 4 d4) = Ok lt ->
  snd (disassemble (Some data) dump_raw f self)
  = if (length d4 =? 4)%nat then Ok tt else Err MalformedTransaction.
Proof.
  intros Hne Hv Hn Hi Hm Ho Hl.
  rewrite disassemble_eq. cbv zeta.
  rewrite (truthy_bytes_nonempty data Hne).
  destruct (truthy_int f); cbn [set_raw set_fees fst _raw];
    rewrite Hv, Hn, Hi, Hm, Ho, Hl;
    destruct (length d4 =? 4)%nat; reflexivity.
Qed.

(** ** Bytes after the transaction *)

Lemma varlen_decode_extend (d : bytes) (v : N) (rest e : bytes) :
  varlen_decode d = Ok (v, rest) ->
  varlen_decode (d ++ e) = Ok (v, rest ++ e).
Proof.
  intros H. apply varlen_decode_inv in H as (enc & -> & _ & _ & Hdec).
  rewrite <- app_assoc. apply Hdec.
Qed.

Lemma read_input_extend (d : bytes) (i : Input) (d' e : bytes) :
  read_input d = Ok (i, d') -> read_input (d ++ e) = Ok (i, d' ++ e).
Proof.
  intros H. apply read_input_inv in H
    as (idx & enc & sq & -> & Hh & Hidx & Hi & _ & _ & Hdec & Hsq & Hs).
  repeat rewrite <- app_assoc.
  rewrite (read_input_layout _ idx enc _ sq (d' ++ e)
             (N.of_nat (length (script_sig i))));
    try assumption; [|now rewrite Nat2N.id].
  destruct i; cbn in *. now subst.
Qed.

Lemma read_inputs_extend (n : nat) (d : bytes) (l : list Input)
    (d' e : bytes) :
  read_inputs n d = (l, Ok d') -> read_inputs n (d ++ e) = (l, Ok (d' ++ e)).
Proof.
  revert d l. induction n as [|n IH]; intros d l H; cbn [read_inputs] in *.
  - injection H as <- <-. reflexivity.
  - destruct (read_input d) as [[i d0]|] eqn:E; [|discriminate].
    rewrite (read_input_extend _ _ _ e E).
    destruct (read_inputs n d0) as [l0 [d1|]] eqn:Er; [|discriminate].
    injection H as <- <-. now rewrite (IH d0 l0 Er).
Qed.

(** An output script slice that leaves bytes behind is whole. *)
Lemma read_output_whole (d : bytes) (o : Output) (d' : bytes) :
  read_output d = Ok (o, d') -> d' <> [] ->
  exists amt enc,
    d = amt ++ enc ++ script_pub_key o ++ d' /\
    length amt = 8%nat /\ amount o = le_decode amt /\
    N.of_nat (length (script_pub_key o)) < 2 ^ 64 /\
    forall r, varlen_decode (enc ++ r)
              = Ok (N.of_nat (length (script_pub_key o)), r).
Proof.
  intros H Hne. apply read_output_inv in H
    as (amt & enc & L & d0 & -> & Ha & Hamt & _ & HL & Hdec & Hs & ->).
  assert (Hlen : (N.to_nat L < length d0)%nat).
  { destruct (Nat.lt_ge_cases (N.to_nat L) (length d0)) as [Hlt|Hge];
      [exact Hlt|]. exfalso. apply Hne. now apply skipn_all2. }
  assert (HL' : N.of_nat (length (script_pub_key o)) = L).
  { rewrite Hs, length_firstn. lia. }
  exists amt, enc. rewrite HL'. rewrite Hs at 1. rewrite firstn_skipn.
  repeat split; assumption.
Qed.

Lemma read_output_extend (d : bytes) (o : Output) (d' e : bytes) :
  read_output d = Ok (o, d') -> d' <> [] ->
  read_output (d ++ e) = Ok (o, d' ++ e).
Proof.
  intros H Hne. apply read_output_whole in H
    as (amt & enc & -> & Ha & Hamt & _ & Hdec); [|exact Hne].
  repeat rewrite <- app_assoc.
  rewrite (read_output_layout amt enc _ (d' ++ e)
             (N.of_nat (length (script_pub_key o))));
    try assumption; [|now rewrite Nat2N.id].
  destruct o; cbn in *. now subst.
Qed.

Lemma read_outputs_nil (n : nat) (d' : bytes) :
  snd (read_outputs n []) = Ok d' -> d' = [].
Proof.
  destruct n as [|n]; cbn; [intros H; now apply Ok_inj in H | discriminate].
Qed.

Lemma read_outputs_extend (n : nat) (d : bytes) (l : list Output)
    (d' e : bytes) :
  read_outputs n d = (l, Ok d') -> d' <> [] ->
  read_outputs n (d ++ e) = (l, Ok (d' ++ e)).
Proof.
  revert d l. induction n as [|n IH]; intros d l H Hne; cbn [read_outputs] in *.
  - injection H as <- <-. reflexivity.
  - destruct (read_output d) as [[o d0]|] eqn:E; [|discriminate].
    destruct (read_outputs n d0) as [l0 [d1|]] eqn:Er; [|discriminate].
    injection H as <- <-.
    assert (Hd0 : d0 <> []).
    { intros ->. apply Hne. apply (read_outputs_nil n). now rewrite Er. }
    rewrite (read_output_extend _ _ _ e E Hd0).
    now rewrite (IH d0 l0 Er Hne).
Qed.

(** C3.  A buffer that [disassemble] accepts, followed by one or more extra
    bytes, is rejected with [MalformedTransaction], whatever the object and
    the options of the second call. *)
Theorem disassemble_trailing_bytes (B extra : bytes) (dump_raw : bool)
    (f : option Z) (self self' : Transaction)
    (HB : B <> [])
    (Hok : disassemble (Some B) dump_raw f self = (self', Ok tt))
    (Hextra : extra <> []) :
  forall dump_raw' f' self0,
    snd (disassemble (Some (B ++ extra)) dump_raw' f' self0)
    = Err MalformedTransaction.
Proof.
  intros dump_raw' f' self0.
  apply disassemble_ok_inv in Hok
    as (data & v & n & d1 & d2 & m & d3 & d4 & lt
        & Hraw & Hv & Hn & Hi & Hm & Ho & Hl & H4 & _).
  rewrite (truthy_bytes_nonempty B HB) in Hraw.
  apply (f_equal (fun o => match o with Some x => x | None => B end)) in Hraw. subst data.
  apply (funpack_slice_inv fmt_L 0) in Hv as (Hlen & -> & _).
  cbn [calcsize skipn] in Hlen.
  destruct (read_inputs (N.to_nat n) d1) as [ins r] eqn:Eri.
  destruct (read_outputs (N.to_nat m) d3) as [outs r'] eqn:Ero.
  cbn [snd] in Hi, Ho. subst r r'.
  assert (Hd4 : d4 <> []) by (intros ->; discriminate H4).
  assert (Hneq : (length (d4 ++ extra) =? 4)%nat = false).
  { rewrite length_app, H4. apply Nat.eqb_neq.
    destruct extra; [congruence | cbn [length]; lia]. }
  pose proof (disassemble_to_assert (B ++ extra) dump_raw' f' self0
                (le_decode (firstn 4 B)) n (d1 ++ extra) (d2 ++ extra)
                m (d3 ++ extra) (d4 ++ extra) lt) as Hrun.
  rewrite Hneq in Hrun. apply Hrun; clear Hrun.
  - destruct B; [congruence | discriminate].
  - rewrite firstn_app_l by lia. apply funpack_exact.
    rewrite length_firstn. cbn [calcsize]. lia.
  - rewrite skipn_app_l by lia. now apply varlen_decode_extend.
  - now rewrite (read_inputs_extend _ _ _ _ extra Eri).
  - now apply varlen_decode_extend.
  - now rewrite (read_outputs_extend _ _ _ _ extra Ero Hd4).
  - rewrite firstn_app_l by lia. exact Hl.
Qed.

Lemma disassemble_trailing_bytes_witness :
  let self := fst (Transaction_init None) in
  let B := [x01; x00; x00; x00; x00; x00; x00; x00; x00; x00] in
  let extra := [x07] in
  B <> [] /\
  disassemble (Some B) false None self
  = (fst (disassemble (Some B) false None self), Ok tt) /\
  extra <> [] /\
  forall dump_raw' f' self0,
    snd (disassemble (Some (B ++ extra)) dump_raw' f' self0)
    = Err MalformedTransaction.
Proof.
  intros self B extra.
  assert (HB : B <> []) by discriminate.
  assert (Hok : disassemble (Some B) false None self
                = (fst (disassemble (Some B) false None self), Ok tt))
    by reflexivity.
  assert (He : extra <> []) by discriminate.
  split; [exact HB|]. split; [exact Hok|]. split; [exact He|].
  exact (disassemble_trailing_bytes B extra false None self
           (fst (disassemble (Some B) false None self)) HB Hok He).
Defined.
(** ** Round trip *)

(** A minimal varint is the encoder's output for its value. *)
Lemma canonical_varint_inv (d : bytes) (v : N) (rest : bytes) :
  canonical_varint d = true ->
  varlen_decode d = Ok (v, rest) ->
  exists enc, varlen_encode v = Ok enc /\ d = enc ++ rest.
Proof.
  unfold canonical_varint. intros Hc Hdec. rewrite Hdec in Hc.
  destruct (varlen_encode v) as [enc|] eqn:Eenc; [|discriminate].
  apply Nat.eqb_eq in Hc.
  apply varlen_decode_inv in Hdec as (enc' & -> & _ & _ & Hd).
  specialize (Hd []). rewrite app_nil_r in Hd.
  destruct (varlen_encode_minimal v enc enc' Eenc Hd) as (_ & Heq).
  rewrite length_app in Hc.
  exists enc. split; [reflexivity|]. rewrite Heq; [reflexivity | lia].
Qed.

Lemma read_inputs_length (n : nat) (d : bytes) (l : list Input) (d' : bytes) :
  read_inputs n d = (l, Ok d') -> length l = n.
Proof.
  revert d l. induction n as [|n IH]; intros d l H; cbn [read_inputs] in H.
  - injection H as <- _. reflexivity.
  - destruct (read_input d) as [[i d0]|]; [|discriminate].
    destruct (read_inputs n d0) as [l0 [d1|]] eqn:Er; [|discriminate].
    injection H as <- <-. cbn [length]. f_equal. exact (IH d0 l0 Er).
Qed.

Lemma read_outputs_length (n : nat) (d : bytes) (l : list Output)
    (d' : bytes) :
  read_outputs n d = (l, Ok d') -> length l = n.
Proof.
  revert d l. induction n as [|n IH]; intros d l H; cbn [read_outputs] in H.
  - injection H as <- _. reflexivity.
  - destruct (read_output d) as [[o d0]|]; [|discriminate].
    destruct (read_outputs n d0) as [l0 [d1|]] eqn:Er; [|discriminate].
    injection H as <- <-. cbn [length]. f_equal. exact (IH d0 l0 Er).
Qed.

(** Inputs read through minimal varints are written back as the bytes they
    were read from. *)
Lemma read_inputs_assemble (n : nat) (d : bytes) (l : list Input)
    (d' : bytes) :
  read_inputs n d = (l, Ok d') ->
  canonical_inputs n d = true ->
  exists w, d = w ++ d' /\
            forall acc, assemble_inputs l acc = Ok (acc ++ w).
Proof.
  revert d l. induction n as [|n IH]; intros d l H Hc;
    cbn [read_inputs canonical_inputs] in *.
  - injection H as <- <-. exists []. split; [reflexivity|].
    intros acc. cbn. now rewrite app_nil_r.
  - apply andb_prop in Hc as (Hc1 & Hc2).
    destruct (read_input d) as [[i d0]|] eqn:E; [|discriminate].
    destruct (read_inputs n d0) as [l0 [d1|]] eqn:Er; [|discriminate].
    injection H as <- <-.
    destruct (IH d0 l0 Er Hc2) as (w & -> & Hw).
    apply read_input_inv in E
      as (idx & enc & sq & -> & Hh & Hidx & Hi & _ & _ & Hdec & Hsq & Hs).
    assert (H36 : length (prevout_hash i ++ idx) = 36%nat)
      by (rewrite length_app; lia).
    rewrite (app_assoc (prevout_hash i) idx), (skipn_exact 36 _ _ H36) in Hc1.
    destruct (canonical_varint_inv _ _ _ Hc1 (Hdec _)) as (enc' & Henc & Eq).
    apply app_inv_tail in Eq. subst enc'.
    exists (prevout_hash i ++ idx ++ enc ++ script_sig i ++ sq ++ w).
    split; [now repeat rewrite <- app_assoc|].
    intros acc. cbn [assemble_inputs]. unfold rbind.
    rewrite Hi, (pack_decode fmt_L idx Hidx), Henc.
    rewrite Hs, (pack_decode fmt_L sq Hsq), Hw.
    now repeat rewrite <- app_assoc.
Qed.

(** The same for outputs, when bytes remain after the loop. *)
Lemma read_outputs_assemble (n : nat) (d : bytes) (l : list Output)
    (d' : bytes) :
  read_outputs n d = (l, Ok d') ->
  d' <> [] ->
  canonical_outputs n d = true ->
  exists w, d = w ++ d' /\
            forall acc, assemble_outputs l acc = Ok (acc ++ w).
Proof.
  revert d l. induction n as [|n IH]; intros d l H Hne Hc;
    cbn [read_outputs canonical_outputs] in *.
  - injection H as <- <-. exists []. split; [reflexivity|].
    intros acc. cbn. now rewrite app_nil_r.
  - apply andb_prop in Hc as (Hc1 & Hc2).
    destruct (read_output d) as [[o d0]|] eqn:E; [|discriminate].
    destruct (read_outputs n d0) as [l0 [d1|]] eqn:Er; [|discriminate].
    injection H as <- <-.
    assert (Hd0 : d0 <> []).
    { intros ->. apply Hne. apply (read_outputs_nil n). now rewrite Er. }
    destruct (IH d0 l0 Er Hne Hc2) as (w & -> & Hw).
    apply read_output_whole in E
      as (amt & enc & -> & Ha & Hamt & _ & Hdec); [|exact Hd0].
    rewrite (skipn_exact 8 amt _ Ha) in Hc1.
    destruct (canonical_varint_inv _ _ _ Hc1 (Hdec _)) as (enc' & Henc & Eq).
    apply app_inv_tail in Eq. subst enc'.
    exists (amt ++ enc ++ script_pub_key o ++ w).
    split; [now repeat rewrite <- app_assoc|].
    intros acc. cbn [assemble_outputs]. unfold rbind.
    rewrite Hamt, (pack_decode fmt_Q amt Ha), Henc, Hw.
    now repeat rewrite <- app_assoc.
Qed.

(** C1, as the code has it.  For every buffer [B] that [disassemble]
    accepts and in which every count and length varint is minimally
    encoded, [assemble] on the resulting object returns [B] byte for byte,
    stores it as the raw buffer and clears the cached hash.  (The object
    keeps no trace of how a varint was spelled, so a longer spelling is not
    reproduced.) *)
Theorem assemble_disassemble_canonical (B : bytes) (dump_raw : bool)
    (f : option Z) (self self' : Transaction)
    (Hok : disassemble (Some B) dump_raw f self = (self', Ok tt))
    (Hcanon : canonical_varints B = true) :
  assemble self'
  = (mkTransaction (Some B) (inputs self') (outputs self') (locktime self')
       (fees self') (version self') None,
     Ok B).
Proof.
  assert (HB : B <> []) by (intros ->; discriminate Hcanon).
  apply disassemble_ok_inv in Hok
    as (data & v & n & d1 & d2 & m & d3 & d4 & lt
        & Hraw & Hv & Hn & Hi & Hm & Ho & Hl & H4 & ->).
  rewrite (truthy_bytes_nonempty B HB) in Hraw.
  apply (f_equal (fun o => match o with Some x => x | None => B end)) in Hraw.
  subst data.
  apply (funpack_slice_inv fmt_L 0) in Hv as (Hlen & -> & Hl4).
  apply (funpack_slice_inv fmt_L 0) in Hl as (_ & -> & _).
  change (skipn 0 B) with B in *. change (skipn 0 d4) with d4 in *.
  cbn [calcsize] in *.
  rewrite (firstn_all2 (n := 4) d4) by lia.
  unfold canonical_varints in Hcanon.
  apply andb_prop in Hcanon as (Hc1 & Hcanon). rewrite Hn in Hcanon.
  apply andb_prop in Hcanon as (Hc2 & Hcanon). rewrite Hi in Hcanon.
  apply andb_prop in Hcanon as (Hc3 & Hc4). rewrite Hm in Hc4.
  destruct (read_inputs (N.to_nat n) d1) as [ins r] eqn:Eri.
  destruct (read_outputs (N.to_nat m) d3) as [outs r'] eqn:Ero.
  cbn [snd fst] in *. subst r r'.
  assert (Hd4 : d4 <> []) by (intros ->; discriminate H4).
  destruct (canonical_varint_inv _ _ _ Hc1 Hn) as (en & Hen & E1).
  destruct (canonical_varint_inv _ _ _ Hc3 Hm) as (em & Hem & E3).
  destruct (read_inputs_assemble _ _ _ _ Eri Hc2) as (wi & E2 & Hwi).
  destruct (read_outputs_assemble _ _ _ _ Ero Hd4 Hc4) as (wo & E4 & Hwo).
  assert (Hbytes : B = firstn 4 B ++ en ++ wi ++ em ++ wo ++ d4).
  { rewrite <- (firstn_skipn 4 B) at 1. f_equal.
    rewrite E1, E2, E3, E4. now repeat rewrite <- app_assoc. }
  assert (Hasm : assemble_bytes
            (mkTransaction (if dump_raw then None else Some B) ins outs
               (le_decode d4) (if truthy_int f then f else fees self)
               (le_decode (firstn 4 B)) None) = Ok B).
  { unfold assemble_bytes, rbind. cbn [version inputs outputs locktime].
    rewrite (pack_decode fmt_L (firstn 4 B) Hl4).
    rewrite (read_inputs_length _ _ _ _ Eri), N2Nat.id, Hen, Hwi.
    rewrite (read_outputs_length _ _ _ _ Ero), N2Nat.id, Hem, Hwo.
    rewrite (pack_decode fmt_L d4 H4).
    rewrite Hbytes at 2. now repeat rewrite <- app_assoc. }
  unfold assemble, bind, ret. rewrite Hasm. reflexivity.
Qed.

Lemma assemble_disassemble_canonical_witness :
  let self := fst (Transaction_init None) in
  let B := [x02; x00; x00; x00; x01] ++ repeat x11 32
           ++ [x03; x00; x00; x00; x02; xaa; xbb; xff; xff; xff; xff]
           ++ [x01; x10; x27; x00; x00; x00; x00; x00; x00; x01; x51]
           ++ [x00; x00; x00; x00] in
  let self' := fst (disassemble (Some B) false None self) in
  disassemble (Some B) false None self = (self', Ok tt) /\
  canonical_varints B = true /\
  assemble self'
  = (mkTransaction (Some B) (inputs self') (outputs self') (locktime self')
       (fees self') (version self') None,
     Ok B).
Proof.
  intros self B self'.
  assert (Hok : disassemble (Some B) false None self = (self', Ok tt))
    by reflexivity.
  assert (Hc : canonical_varints B = true) by reflexivity.
  split; [exact Hok|]. split; [exact Hc|].
  exact (assemble_disassemble_canonical B false None self self' Hok Hc).
Defined.

(** C1 as stated fails: a buffer whose input count is spelled with the
    three-byte form [fd 00 00] is accepted by [disassemble], and [assemble]
    writes the count back as the single byte [00]. *)
Lemma assemble_disassemble_not_exact :
  let self := fst (Transaction_init None) in
  let B := [x01; x00; x00; x00; xfd; x00; x00; x00; x00; x00; x00; x00] in
  let self' := fst (disassemble (Some B) false None self) in
  disassemble (Some B) false None self = (self', Ok tt) /\
  snd (assemble self')
  = Ok [x01; x00; x00; x00; x00; x00; x00; x00; x00; x00] /\
  snd (assemble self') <> Ok B.
Proof.
  intros self B self'. split; [reflexivity|]. split; [reflexivity|].
  vm_compute. discriminate.
Qed.

(** ** [is_coinbase] *)

(** C8.  On a transaction with at least one input, [is_coinbase] returns a
    boolean, which is [true] exactly when the previous-output hash of the
    first input is 32 zero bytes, and [false] for any other hash. *)
Theorem is_coinbase_first_input (self : Transaction) (i : Input)
    (rest : list Input) (Hin : inputs self = i :: rest) :
  (is_coinbase self = Ok true <-> prevout_hash i = repeat x00 32) /\
  (prevout_hash i <> repeat x00 32 -> is_coinbase self = Ok false).
Proof.
  unfold is_coinbase, bytes_eqb, _nullprev. rewrite Hin.
  destruct (list_eq_dec byte_eq_dec (prevout_hash i) (repeat x00 32)) as [E|E].
  - split; [tauto | intros H; contradiction].
  - split; [|reflexivity]. split; [discriminate | intros H; contradiction].
Qed.

Lemma is_coinbase_first_input_witness :
  let i := mkInput (repeat x00 32) 4294967295 [x51] 0 in
  let self := mkTransaction None [i] [] 0 None 1 None in
  inputs self = [i] /\
  (is_coinbase self = Ok true <-> prevout_hash i = repeat x00 32) /\
  (prevout_hash i <> repeat x00 32 -> is_coinbase self = Ok false).
Proof.
  intros i self.
  split; [reflexivity | exact (is_coinbase_first_input self i [] eq_refl)].
Defined.

(** C9.  On a transaction whose [inputs] list is empty, [is_coinbase] raises
    [InvalidState] (the [IndexError] of [self.inputs[0]]) instead of
    returning a boolean. *)
Theorem is_coinbase_no_inputs (self : Transaction) (Hin : inputs self = []) :
  is_coinbase self = Err InvalidState.
Proof. unfold is_coinbase. now rewrite Hin. Qed.

Lemma is_coinbase_no_inputs_witness :
  inputs (fst (Transaction_init None)) = [] /\
  is_coinbase (fst (Transaction_init None)) = Err InvalidState.
Proof.
  split; [reflexivity | exact (is_coinbase_no_inputs (fst (Transaction_init None)) eq_refl)].
Defined.

(** ** [hash] *)

(** C7, on the code.  [hash] reads [self._raw] and not the [raw] accessor:
    on an object built without bytes, and on one disassembled with
    [dump_raw=True], it raises [TypeError] (hashing [None]), although [raw]
    on the same objects re-assembles the ten bytes of the transaction. *)
Theorem hash_without_raw_raises (sha256 : bytes -> bytes) :
  let B := [x01; x00; x00; x00; x00; x00; x00; x00; x00; x00] in
  let fresh := fst (Transaction_init None) in
  let dumped := fst (disassemble (Some B) true None fresh) in
  snd (disassemble (Some B) true None fresh) = Ok tt /\
  _raw fresh = None /\ _raw dumped = None /\
  snd (hash sha256 fresh) = Err TypeError /\
  snd (hash sha256 dumped) = Err TypeError /\
  snd (raw fresh) = Ok B /\
  snd (raw dumped) = Ok B /\
  snd (hash sha256 (fst (raw dumped))) = Ok (sha256 (sha256 B)).
Proof. cbv zeta. repeat split; reflexivity. Qed.
(** * Further properties *)

(** ** [assemble]: when it succeeds *)

Lemma pack_L_spec (v : N) :
  pack fmt_L v = if v <? 2 ^ 32 then Ok (le_encode 4 v) else Err StructError.
Proof. reflexivity. Qed.

Lemma pack_Q_spec (v : N) :
  pack fmt_Q v = if v <? 2 ^ 64 then Ok (le_encode 8 v) else Err StructError.
Proof. reflexivity. Qed.

Lemma varlen_encode_spec (v : N) :
  (v <? 2 ^ 64) = true /\ (exists enc, varlen_encode v = Ok enc) \/
  (v <? 2 ^ 64) = false /\ varlen_encode v = Err StructError.
Proof.
  assert (He : 2 ^ 64 = 18446744073709551616) by reflexivity.
  destruct (N.ltb_spec v (2 ^ 64)) as [H|H].
  - left. split; [reflexivity|].
    destruct (varlen_encode_total v H) as (enc & Henc & _). now exists enc.
  - right. split; [reflexivity|]. unfold varlen_encode.
    destruct (N.leb_spec v 252); [lia|].
    destruct (N.leb_spec v 65535); [lia|].
    destruct (N.leb_spec v 4294967295); [lia|].
    destruct (N.leb_spec v 18446744073709551615); [lia | reflexivity].
Qed.

(** The loops of [assemble] only append to the local [data]. *)
Lemma assemble_inputs_acc (l : list Input) (acc : bytes) :
  assemble_inputs l acc =
  match assemble_inputs l [] with
  | Ok w => Ok (acc ++ w)
  | Err e => Err e
  end.
Proof.
  revert acc. induction l as [|i l IH]; intros acc.
  - cbn. now rewrite app_nil_r.
  - cbn [assemble_inputs]. unfold rbind.
    destruct (pack fmt_L (prevout_idx i)) as [p|e]; [|reflexivity].
    destruct (varlen_encode (N.of_nat (length (script_sig i)))) as [en|e];
      [|reflexivity].
    destruct (pack fmt_L (seqno i)) as [q|e]; [|reflexivity].
    rewrite (IH (_ ++ _)). rewrite (IH (_ ++ _)).
    destruct (assemble_inputs l []) as [w|e]; [|reflexivity].
    cbn [app]. now repeat rewrite <- app_assoc.
Qed.

Lemma assemble_outputs_acc (l : list Output) (acc : bytes) :
  assemble_outputs l acc =
  match assemble_outputs l [] with
  | Ok w => Ok (acc ++ w)
  | Err e => Err e
  end.
Proof.
  revert acc. induction l as [|o l IH]; intros acc.
  - cbn. now rewrite app_nil_r.
  - cbn [assemble_outputs]. unfold rbind.
    destruct (pack fmt_Q (amount o)) as [p|e]; [|reflexivity].
    destruct (varlen_encode (N.of_nat (length (script_pub_key o)))) as [en|e];
      [|reflexivity].
    rewrite (IH (_ ++ _)). rewrite (IH (_ ++ _)).
    destruct (assemble_outputs l []) as [w|e]; [|reflexivity].
    cbn [app]. now repeat rewrite <- app_assoc.
Qed.

Lemma assemble_inputs_outcome (l : list Input) :
  forallb input_in_range l = true /\
    (exists w, assemble_inputs l [] = Ok w) \/
  forallb input_in_range l = false /\
    assemble_inputs l [] = Err StructError.
Proof.
  induction l as [|i l IH].
  - left. split; [reflexivity | now exists []].
  - cbn [forallb assemble_inputs]. unfold input_in_range at 1 3, rbind.
    rewrite !pack_L_spec.
    destruct (prevout_idx i <? 2 ^ 32); [|right; split; reflexivity].
    destruct (varlen_encode_spec (N.of_nat (length (script_sig i))))
      as [(-> & en & ->) | (-> & ->)].
    2:{ right. split; [now rewrite andb_false_r | reflexivity]. }
    destruct (seqno i <? 2 ^ 32); [|right; split; reflexivity].
    rewrite assemble_inputs_acc. cbn [andb].
    destruct IH as [(-> & w & ->) | (-> & ->)].
    + left. split; [reflexivity | eexists; reflexivity].
    + right. split; reflexivity.
Qed.

Lemma assemble_outputs_outcome (l : list Output) :
  forallb output_in_range l = true /\
    (exists w, assemble_outputs l [] = Ok w) \/
  forallb output_in_range l = false /\
    assemble_outputs l [] = Err StructError.
Proof.
  induction l as [|o l IH].
  - left. split; [reflexivity | now exists []].
  - cbn [forallb assemble_outputs]. unfold output_in_range at 1 3, rbind.
    rewrite !pack_Q_spec.
    destruct (amount o <? 2 ^ 64); [|right; split; reflexivity].
    destruct (varlen_encode_spec (N.of_nat (length (script_pub_key o))))
      as [(-> & en & ->) | (-> & ->)].
    2:{ right. split; reflexivity. }
    rewrite assemble_outputs_acc. cbn [andb].
    destruct IH as [(-> & w & ->) | (-> & ->)].
    + left. split; [reflexivity | eexists; reflexivity].
    + right. split; reflexivity.
Qed.

Lemma assemble_bytes_outcome (self : Transaction) :
  fields_in_range self = true /\
    (exists data, assemble_bytes self = Ok data) \/
  fields_in_range self = false /\
    assemble_bytes self = Err StructError.
Proof.
  unfold fields_in_range, assemble_bytes, rbind. rewrite !pack_L_spec.
  destruct (version self <? 2 ^ 32); [|right; split; reflexivity].
  destruct (varlen_encode_spec (N.of_nat (length (inputs self))))
    as [(-> & en & ->) | (-> & ->)]; [|right; split; reflexivity].
  rewrite assemble_inputs_acc.
  destruct (assemble_inputs_outcome (inputs self))
    as [(-> & wi & ->) | (-> & ->)]; [|right; split; reflexivity].
  destruct (varlen_encode_spec (N.of_nat (length (outputs self))))
    as [(-> & em & ->) | (-> & ->)]; [|right; split; reflexivity].
  rewrite assemble_outputs_acc.
  destruct (assemble_outputs_outcome (outputs self))
    as [(-> & wo & ->) | (-> & ->)]; [|right; split; reflexivity].
  destruct (locktime self <? 2 ^ 32); [|right; split; reflexivity].
  left. split; [reflexivity | eexists; reflexivity].
Qed.

(** X1.  [assemble] succeeds exactly when every integer field fits the
    width it is packed in (and every length fits a varint).  It then stores
    the bytes it returns as the raw buffer, clears the cached hash and
    leaves the other fields alone.  Otherwise it raises the [struct.error]
    of [pack] and the object is exactly as it was: [data] is a local until
    the last two assignments. *)
Theorem assemble_outcome (self : Transaction) :
  (fields_in_range self = true /\
   exists data,
     assemble self
     = (mkTransaction (Some data) (inputs self) (outputs self)
          (locktime self) (fees self) (version self) None,
        Ok data)) \/
  (fields_in_range self = false /\
   assemble self = (self, Err StructError)).
Proof.
  destruct (assemble_bytes_outcome self) as [(Hr & data & Hd) | (Hr & Hd)].
  - left. split; [exact Hr|]. exists data.
    unfold assemble, bind, ret. now rewrite Hd.
  - right. split; [exact Hr|].
    unfold assemble, bind, ret. now rewrite Hd.
Qed.
(** ** [assemble] then [disassemble] *)

(** A successful call on a non-empty [raw], with the object it leaves. *)
Lemma disassemble_run (data : bytes) (dump_raw : bool) (f : option Z)
    (self : Transaction) (v n : N) (d1 : bytes) (ins : list Input)
    (d2 : bytes) (m : N) (d3 : bytes) (outs : list Output) (d4 : bytes)
    (lt : N) :
  data <> [] ->
  funpack fmt_L (firstn 4 data) = Ok v ->
  varlen_decode (skipn 4 data) = Ok (n, d1) ->
  read_inputs (N.to_nat n) d1 = (ins, Ok d2) ->
  varlen_decode d2 = Ok (m, d3) ->
  read_outputs (N.to_nat m) d3 = (outs, Ok d4) ->
  funpack fmt_L (firstn 4 d4) = Ok lt ->
  length d4 = 4%nat ->
  disassemble (Some data) dump_raw f self
  = (mkTransaction (if dump_raw then None else Some data) ins outs lt
       (if truthy_int f then f else fees self) v None,
     Ok tt).
Proof.
  intros Hne Hv Hn Hi Hm Ho Hl H4.
  rewrite disassemble_eq. cbv zeta.
  rewrite (truthy_bytes_nonempty data Hne).
  destruct (truthy_int f); cbn [set_raw set_fees fst _raw];
    rewrite Hv, Hn, Hi; cbn [fst snd]; rewrite Hm, Ho; cbn [fst snd];
    rewrite Hl, H4; cbn; destruct dump_raw; reflexivity.
Qed.

Lemma ltb_2_32 (v : N) : (v <? 2 ^ 32) = true -> v < 256 ^ N.of_nat 4.
Proof.
  intros H. apply N.ltb_lt in H.
  assert (E : 256 ^ N.of_nat 4 = 2 ^ 32) by reflexivity. lia.
Qed.

Lemma ltb_2_64 (v : N) : (v <? 2 ^ 64) = true -> v < 256 ^ N.of_nat 8.
Proof.
  intros H. apply N.ltb_lt in H.
  assert (E : 256 ^ N.of_nat 8 = 2 ^ 64) by reflexivity. lia.
Qed.

(** What [assemble] writes for a list of inputs with 32-byte hashes is read
    back by the input loop as that list. *)
Lemma assemble_inputs_read (l : list Input) (w : bytes) :
  forallb (fun i => (length (prevout_hash i) =? 32)%nat) l = true ->
  assemble_inputs l [] = Ok w ->
  forall rest, read_inputs (length l) (w ++ rest) = (l, Ok rest).
Proof.
  revert w. induction l as [|i l IH]; intros w Hh Hw rest.
  - cbn in Hw. apply Ok_inj in Hw. now subst w.
  - cbn [forallb] in Hh. apply andb_prop in Hh as (Hh1 & Hh2).
    apply Nat.eqb_eq in Hh1.
    cbn [assemble_inputs] in Hw. unfold rbind in Hw.
    rewrite !pack_L_spec in Hw.
    destruct (prevout_idx i <? 2 ^ 32) eqn:Ei; [|discriminate].
    destruct (varlen_encode (N.of_nat (length (script_sig i)))) as [en|] eqn:Een;
      [|discriminate].
    destruct (seqno i <? 2 ^ 32) eqn:Es; [|discriminate].
    rewrite assemble_inputs_acc in Hw.
    destruct (assemble_inputs l []) as [w'|] eqn:Ew; [|discriminate].
    apply Ok_inj in Hw. subst w. cbn [app length read_inputs].
    repeat rewrite <- app_assoc.
    rewrite (read_input_layout (prevout_hash i) (le_encode 4 (prevout_idx i))
               en (script_sig i) (le_encode 4 (seqno i)) (w' ++ rest)
               (N.of_nat (length (script_sig i))));
      try apply length_le_encode; try assumption.
    + rewrite !le_decode_encode by now apply ltb_2_32.
      rewrite (IH w' Hh2 eq_refl rest). destruct i; reflexivity.
    + intros r. now apply varlen_decode_encode.
    + now rewrite Nat2N.id.
Qed.

Lemma assemble_outputs_read (l : list Output) (w : bytes) :
  assemble_outputs l [] = Ok w ->
  forall rest, read_outputs (length l) (w ++ rest) = (l, Ok rest).
Proof.
  revert w. induction l as [|o l IH]; intros w Hw rest.
  - cbn in Hw. apply Ok_inj in Hw. now subst w.
  - cbn [assemble_outputs] in Hw. unfold rbind in Hw.
    rewrite pack_Q_spec in Hw.
    destruct (amount o <? 2 ^ 64) eqn:Ea; [|discriminate].
    destruct (varlen_encode (N.of_nat (length (script_pub_key o))))
      as [en|] eqn:Een; [|discriminate].
    rewrite assemble_outputs_acc in Hw.
    destruct (assemble_outputs l []) as [w'|] eqn:Ew; [|discriminate].
    apply Ok_inj in Hw. subst w. cbn [app length read_outputs].
    repeat rewrite <- app_assoc.
    rewrite (read_output_layout (le_encode 8 (amount o)) en
               (script_pub_key o) (w' ++ rest)
               (N.of_nat (length (script_pub_key o))));
      try apply length_le_encode.
    + rewrite le_decode_encode by now apply ltb_2_64.
      rewrite (IH w' eq_refl rest). destruct o; reflexivity.
    + intros r. now apply varlen_decode_encode.
    + now rewrite Nat2N.id.
Qed.

(** The bytes [assemble] produces for an object with 32-byte hashes, and
    how [disassemble] reads them. *)
Lemma assemble_bytes_disassemble (self : Transaction) (B : bytes) :
  hashes_32 self = true ->
  assemble_bytes self = Ok B ->
  forall dump_raw f s,
    disassemble (Some B) dump_raw f s
    = (mkTransaction (if dump_raw then None else Some B)
         (inputs self) (outputs self) (locktime self)
         (if truthy_int f then f else fees s) (version self) None,
       Ok tt).
Proof.
  intros Hh HB dump_raw f s.
  unfold assemble_bytes, rbind in HB. rewrite !pack_L_spec in HB.
  destruct (version self <? 2 ^ 32) eqn:Ev; [|discriminate].
  destruct (varlen_encode (N.of_nat (length (inputs self)))) as [en|] eqn:Een;
    [|discriminate].
  rewrite assemble_inputs_acc in HB.
  destruct (assemble_inputs (inputs self) []) as [wi|] eqn:Ewi; [|discriminate].
  destruct (varlen_encode (N.of_nat (length (outputs self)))) as [em|] eqn:Eem;
    [|discriminate].
  rewrite assemble_outputs_acc in HB.
  destruct (assemble_outputs (outputs self) []) as [wo|] eqn:Ewo;
    [|discriminate].
  destruct (locktime self <? 2 ^ 32) eqn:El; [|discriminate].
  apply Ok_inj in HB.
  assert (EB : B = le_encode 4 (version self) ++ en ++ wi ++ em ++ wo
                   ++ le_encode 4 (locktime self))
    by (subst B; now repeat rewrite <- app_assoc).
  clear HB.
  assert (Lv : length (le_encode 4 (version self)) = 4%nat)
    by apply length_le_encode.
  apply (disassemble_run B dump_raw f s (version self)
           (N.of_nat (length (inputs self)))
           (wi ++ em ++ wo ++ le_encode 4 (locktime self)) (inputs self)
           (em ++ wo ++ le_encode 4 (locktime self))
           (N.of_nat (length (outputs self)))
           (wo ++ le_encode 4 (locktime self)) (outputs self)
           (le_encode 4 (locktime self)) (locktime self)).
  - rewrite EB. intros E. apply (f_equal (@length byte)) in E.
    rewrite length_app, Lv in E. discriminate E.
  - rewrite EB, (firstn_exact 4 _ _ Lv), (funpack_exact fmt_L _ Lv).
    now rewrite le_decode_encode by now apply ltb_2_32.
  - rewrite EB, (skipn_exact 4 _ _ Lv). now apply varlen_decode_encode.
  - rewrite Nat2N.id. now apply assemble_inputs_read.
  - now apply varlen_decode_encode.
  - rewrite Nat2N.id. now apply assemble_outputs_read.
  - rewrite firstn_all2 by (rewrite length_le_encode; lia).
    rewrite (funpack_exact fmt_L) by apply length_le_encode.
    now rewrite le_decode_encode by now apply ltb_2_32.
  - apply length_le_encode.
Qed.

(** X2.  [disassemble] undoes [assemble]: when every previous-output hash
    of an object has 32 bytes and [assemble] succeeds on it with bytes [B],
    [disassemble] accepts [B] on any object and stores exactly the version,
    inputs, outputs and lock time that were assembled. *)
Theorem disassemble_assemble (self self1 : Transaction) (B : bytes)
    (Hhash : hashes_32 self = true)
    (Hasm : assemble self = (self1, Ok B)) :
  forall dump_raw f s,
    disassemble (Some B) dump_raw f s
    = (mkTransaction (if dump_raw then None else Some B)
         (inputs self) (outputs self) (locktime self)
         (if truthy_int f then f else fees s) (version self) None,
       Ok tt).
Proof.
  apply assemble_bytes_disassemble; [exact Hhash|].
  unfold assemble, bind, ret in Hasm.
  destruct (assemble_bytes self) as [data|e]; [|discriminate].
  cbn in Hasm. injection Hasm as _ <-. reflexivity.
Qed.

Lemma disassemble_assemble_witness :
  let i := mkInput (repeat x11 32) 3 [xaa; xbb] 4294967295 in
  let o := mkOutput 10000 [x51] in
  let self := mkTransaction None [i] [o] 0 None 2 None in
  let B := [x02; x00; x00; x00; x01] ++ repeat x11 32
           ++ [x03; x00; x00; x00; x02; xaa; xbb; xff; xff; xff; xff]
           ++ [x01; x10; x27; x00; x00; x00; x00; x00; x00; x01; x51]
           ++ [x00; x00; x00; x00] in
  hashes_32 self = true /\
  assemble self = (fst (assemble self), Ok B) /\
  forall dump_raw f s,
    disassemble (Some B) dump_raw f s
    = (mkTransaction (if dump_raw then None else Some B)
         (inputs self) (outputs self) (locktime self)
         (if truthy_int f then f else fees s) (version self) None,
       Ok tt).
Proof.
  intros i o self B.
  assert (Hh : hashes_32 self = true) by reflexivity.
  assert (Ha : assemble self = (fst (assemble self), Ok B)) by reflexivity.
  split; [exact Hh|]. split; [exact Ha|].
  exact (disassemble_assemble self (fst (assemble self)) B Hh Ha).
Defined.
(** ** What a successful [disassemble] leaves *)

Lemma le_decode_lt_2_32 (bs : bytes) :
  length bs = 4%nat -> (le_decode bs <? 2 ^ 32) = true.
Proof.
  intros H. apply N.ltb_lt. pose proof (le_decode_bound bs) as Hb.
  rewrite H in Hb. assert (E : 256 ^ N.of_nat 4 = 2 ^ 32) by reflexivity. lia.
Qed.

Lemma le_decode_lt_2_64 (bs : bytes) :
  length bs = 8%nat -> (le_decode bs <? 2 ^ 64) = true.
Proof.
  intros H. apply N.ltb_lt. pose proof (le_decode_bound bs) as Hb.
  rewrite H in Hb. assert (E : 256 ^ N.of_nat 8 = 2 ^ 64) by reflexivity. lia.
Qed.

Lemma read_input_in_range (d : bytes) (i : Input) (d' : bytes) :
  read_input d = Ok (i, d') ->
  input_in_range i = true /\ (length (prevout_hash i) =? 32)%nat = true.
Proof.
  intros H. apply read_input_inv in H
    as (idx & enc & sq & _ & Hh & Hidx & Hi & _ & HL & _ & Hsq & Hs).
  unfold input_in_range. rewrite Hi, Hs, Hh.
  rewrite (le_decode_lt_2_32 idx Hidx), (le_decode_lt_2_32 sq Hsq).
  apply N.ltb_lt in HL. rewrite HL. split; reflexivity.
Qed.

Lemma read_output_in_range (d : bytes) (o : Output) (d' : bytes) :
  read_output d = Ok (o, d') -> output_in_range o = true.
Proof.
  intros H. apply read_output_inv in H
    as (amt & enc & L & d0 & _ & Ha & Hamt & _ & HL & _ & Hs & _).
  unfold output_in_range. rewrite Hamt, (le_decode_lt_2_64 amt Ha).
  cbn [andb]. apply N.ltb_lt. rewrite Hs, length_firstn. lia.
Qed.

(** Every record the loops append fits the wire widths, whether or not the
    loop runs to its end. *)
Lemma read_inputs_in_range (n : nat) (d : bytes) :
  forallb input_in_range (fst (read_inputs n d)) = true /\
  forallb (fun i => (length (prevout_hash i) =? 32)%nat)
    (fst (read_inputs n d)) = true.
Proof.
  revert d. induction n as [|n IH]; intros d; cbn [read_inputs].
  - split; reflexivity.
  - destruct (read_input d) as [[i d0]|e] eqn:E; [|split; reflexivity].
    specialize (IH d0). destruct (read_inputs n d0) as [l r].
    cbn [fst forallb] in *.
    destruct (read_input_in_range _ _ _ E) as (-> & ->).
    exact IH.
Qed.

Lemma read_outputs_in_range (n : nat) (d : bytes) :
  forallb output_in_range (fst (read_outputs n d)) = true.
Proof.
  revert d. induction n as [|n IH]; intros d; cbn [read_outputs].
  - reflexivity.
  - destruct (read_output d) as [[o d0]|e] eqn:E; [|reflexivity].
    specialize (IH d0). destruct (read_outputs n d0) as [l r].
    cbn [fst forallb] in *.
    rewrite (read_output_in_range _ _ _ E). exact IH.
Qed.

Lemma disassemble_ok_in_range (raw : option bytes) (dump_raw : bool)
    (f : option Z) (self self' : Transaction) :
  disassemble raw dump_raw f self = (self', Ok tt) ->
  fields_in_range self' = true /\ hashes_32 self' = true.
Proof.
  intros H. apply disassemble_ok_inv in H
    as (data & v & n & d1 & d2 & m & d3 & d4 & lt
        & _ & Hv & Hn & Hi & Hm & Ho & Hl & H4 & ->).
  apply (funpack_slice_inv fmt_L 0) in Hv as (_ & -> & Hlv).
  apply (funpack_slice_inv fmt_L 0) in Hl as (_ & -> & Hll).
  apply varlen_decode_inv in Hn as (_ & _ & _ & Hn & _).
  apply varlen_decode_inv in Hm as (_ & _ & _ & Hm & _).
  destruct (read_inputs (N.to_nat n) d1) as [ins r] eqn:Eri.
  destruct (read_outputs (N.to_nat m) d3) as [outs r'] eqn:Ero.
  cbn [snd] in Hi, Ho. subst r r'.
  pose proof (read_inputs_in_range (N.to_nat n) d1) as (Hr1 & Hr2).
  pose proof (read_outputs_in_range (N.to_nat m) d3) as Hr3.
  rewrite Eri in Hr1, Hr2. rewrite Ero in Hr3. cbn [fst] in *.
  unfold fields_in_range, hashes_32.
  cbn [version inputs outputs locktime].
  rewrite (le_decode_lt_2_32 _ Hlv), (le_decode_lt_2_32 _ Hll).
  rewrite (read_inputs_length _ _ _ _ Eri), (read_outputs_length _ _ _ _ Ero).
  rewrite !N2Nat.id.
  apply N.ltb_lt in Hn, Hm. rewrite Hn, Hm, Hr1, Hr2, Hr3. split; reflexivity.
Qed.

(** X3.  An object that [disassemble] has filled can always be assembled:
    whatever buffer was accepted, [assemble] on the result succeeds, and the
    bytes it returns disassemble again to the same version, inputs, outputs
    and lock time.  (Together with the round trip on minimal buffers:
    [assemble] after [disassemble] rewrites a buffer into one that reads the
    same.) *)
Theorem assemble_after_disassemble (raw : option bytes) (dump_raw : bool)
    (f : option Z) (self self' : Transaction)
    (Hok : disassemble raw dump_raw f self = (self', Ok tt)) :
  exists B',
    assemble self'
    = (mkTransaction (Some B') (inputs self') (outputs self')
         (locktime self') (fees self') (version self') None,
       Ok B') /\
    forall dump_raw' f' s,
      disassemble (Some B') dump_raw' f' s
      = (mkTransaction (if dump_raw' then None else Some B')
           (inputs self') (outputs self') (locktime self')
           (if truthy_int f' then f' else fees s) (version self') None,
         Ok tt).
Proof.
  destruct (disassemble_ok_in_range _ _ _ _ _ Hok) as (Hr & Hh).
  destruct (assemble_bytes_outcome self') as [(_ & B' & HB) | (Hr' & _)];
    [|congruence].
  exists B'. split.
  - unfold assemble, bind, ret. now rewrite HB.
  - now apply assemble_bytes_disassemble.
Qed.

Lemma assemble_after_disassemble_witness :
  let self := mkTransaction None [] [] 0 None 1 None in
  let B := [x01; x00; x00; x00; xfd; x00; x00; x00; x00; x00; x00; x00] in
  let self' := fst (disassemble (Some B) false None self) in
  disassemble (Some B) false None self = (self', Ok tt) /\
  exists B',
    assemble self'
    = (mkTransaction (Some B') (inputs self') (outputs self')
         (locktime self') (fees self') (version self') None,
       Ok B') /\
    forall dump_raw' f' s,
      disassemble (Some B') dump_raw' f' s
      = (mkTransaction (if dump_raw' then None else Some B')
           (inputs self') (outputs self') (locktime self')
           (if truthy_int f' then f' else fees s) (version self') None,
         Ok tt).
Proof.
  intros self B self'.
  assert (Hok : disassemble (Some B) false None self = (self', Ok tt))
    by reflexivity.
  split; [exact Hok|].
  exact (assemble_after_disassemble (Some B) false None self self' Hok).
Defined.

(** X4.  After a successful [disassemble] every field fits its wire width:
    version, lock time, previous-output indices and sequence numbers are
    below 2^32, amounts below 2^64, every previous-output hash has 32
    bytes; and the object holds as many inputs and outputs as the two
    counts read from the buffer announce. *)
Theorem disassemble_fields_well_formed (B : bytes) (dump_raw : bool)
    (f : option Z) (self self' : Transaction)
    (HB : B <> [])
    (Hok : disassemble (Some B) dump_raw f self = (self', Ok tt)) :
  fields_in_range self' = true /\ hashes_32 self' = true /\
  exists n d1 d2 m d3,
    varlen_decode (skipn 4 B) = Ok (n, d1) /\
    N.of_nat (length (inputs self')) = n /\
    snd (inputs_loop (N.to_nat n) d1 self) = Ok d2 /\
    varlen_decode d2 = Ok (m, d3) /\
    N.of_nat (length (outputs self')) = m.
Proof.
  destruct (disassemble_ok_in_range _ _ _ _ _ Hok) as (Hr & Hh).
  split; [exact Hr|]. split; [exact Hh|].
  apply disassemble_ok_inv in Hok
    as (data & v & n & d1 & d2 & m & d3 & d4 & lt
        & Hraw & Hv & Hn & Hi & Hm & Ho & Hl & H4 & ->).
  rewrite (truthy_bytes_nonempty B HB) in Hraw.
  apply (f_equal (fun o => match o with Some x => x | None => B end)) in Hraw.
  subst data.
  exists n, d1, d2, m, d3. cbn [inputs outputs].
  destruct (read_inputs (N.to_nat n) d1) as [ins r] eqn:Eri.
  destruct (read_outputs (N.to_nat m) d3) as [outs r'] eqn:Ero.
  cbn [snd fst] in *. subst r r'.
  rewrite inputs_loop_run, Eri. cbn [snd].
  rewrite (read_inputs_length _ _ _ _ Eri), (read_outputs_length _ _ _ _ Ero).
  rewrite !N2Nat.id. repeat split; assumption.
Qed.

Lemma disassemble_fields_well_formed_witness :
  let self := mkTransaction None [] [] 0 None 1 None in
  let B := [x02; x00; x00; x00; x01] ++ repeat x11 32
           ++ [x03; x00; x00; x00; x02; xaa; xbb; xff; xff; xff; xff]
           ++ [x01; x10; x27; x00; x00; x00; x00; x00; x00; x01; x51]
           ++ [x00; x00; x00; x00] in
  let self' := fst (disassemble (Some B) false None self) in
  B <> [] /\
  disassemble (Some B) false None self = (self', Ok tt) /\
  fields_in_range self' = true /\ hashes_32 self' = true /\
  exists n d1 d2 m d3,
    varlen_decode (skipn 4 B) = Ok (n, d1) /\
    N.of_nat (length (inputs self')) = n /\
    snd (inputs_loop (N.to_nat n) d1 self) = Ok d2 /\
    varlen_decode d2 = Ok (m, d3) /\
    N.of_nat (length (outputs self')) = m.
Proof.
  intros self B self'.
  assert (HB : B <> []) by discriminate.
  assert (Hok : disassemble (Some B) false None self = (self', Ok tt))
    by reflexivity.
  split; [exact HB|]. split; [exact Hok|].
  exact (disassemble_fields_well_formed B false None self self' HB Hok).
Defined.
(** ** Script lengths of the outputs *)

Lemma read_output_script (d : bytes) (o : Output) (d' : bytes) :
  read_output d = Ok (o, d') ->
  exists L rest,
    amount o = le_decode (firstn 8 d) /\
    varlen_decode (skipn 8 d) = Ok (L, rest) /\
    script_pub_key o = firstn (N.to_nat L) rest /\
    d' = skipn (N.to_nat L) rest.
Proof.
  unfold read_output, rbind.
  destruct (funpack fmt_Q (firstn 8 d)) as [amt|] eqn:E1; [|discriminate].
  destruct (varlen_decode (skipn 8 d)) as [[L rest]|]; [|discriminate].
  apply (funpack_slice_inv fmt_Q 0) in E1 as (_ & -> & _).
  change (skipn 0 d) with d. cbn [calcsize].
  intros H. apply Ok_inj in H. exists L, rest.
  assert (Ho : o = mkOutput (le_decode (firstn 8 d)) (firstn (N.to_nat L) rest))
    by congruence.
  assert (Hd : d' = skipn (N.to_nat L) rest) by congruence.
  subst o. cbn [amount script_pub_key]. repeat split. exact Hd.
Qed.

Lemma read_output_suffix (d : bytes) (o : Output) (d' : bytes) :
  read_output d = Ok (o, d') -> suffix_of d' d.
Proof.
  intros H. apply read_output_inv in H
    as (amt & enc & L & d0 & -> & _ & _ & _ & _ & _ & _ & ->).
  exists (amt ++ enc ++ firstn (N.to_nat L) d0).
  repeat rewrite <- app_assoc. now rewrite firstn_skipn.
Qed.

Lemma read_inputs_suffix (n : nat) (d d' : bytes) :
  snd (read_inputs n d) = Ok d' -> suffix_of d' d.
Proof.
  revert d. induction n as [|n IH]; intros d; cbn [read_inputs].
  - cbn. intros H. apply Ok_inj in H. subst d'. apply suffix_of_refl.
  - destruct (read_input d) as [[i d0]|] eqn:E; [|discriminate].
    specialize (IH d0). destruct (read_inputs n d0) as [l r]. cbn [snd] in *.
    intros H. eapply suffix_of_trans; [exact (IH H)|].
    eapply read_input_suffix; eassumption.
Qed.

Lemma varlen_decode_suffix (d : bytes) (v : N) (rest : bytes) :
  varlen_decode d = Ok (v, rest) -> suffix_of rest d.
Proof.
  intros H. apply varlen_decode_inv in H as (enc & -> & _). now exists enc.
Qed.

Lemma skipn_suffix (n : nat) (d : bytes) : suffix_of (skipn n d) d.
Proof. exists (firstn n d). now rewrite firstn_skipn. Qed.

(** When bytes remain after the output loop, every output it appended has
    a script of the length decoded in front of it. *)
Lemma read_outputs_script_lengths (n : nat) (d : bytes) (l : list Output)
    (d' : bytes) :
  read_outputs n d = (l, Ok d') -> d' <> [] ->
  Forall (pk_script_as_declared d) l.
Proof.
  revert d l. induction n as [|n IH]; intros d l H Hne; cbn [read_outputs] in H.
  - injection H as <- _. constructor.
  - destruct (read_output d) as [[o d0]|] eqn:E; [|discriminate].
    destruct (read_outputs n d0) as [l0 [d1|]] eqn:Er; [|discriminate].
    injection H as <- <-.
    assert (Hd0 : d0 <> []).
    { intros ->. apply Hne. apply (read_outputs_nil n). now rewrite Er. }
    constructor.
    + destruct (read_output_script _ _ _ E) as (L & rest & Ha & Hdec & Hs & Hd).
      exists d, L, rest. split; [apply suffix_of_refl|].
      split; [exact Ha|]. split; [exact Hdec|]. split; [|exact Hs].
      assert (Hlen : (N.to_nat L < length rest)%nat).
      { destruct (Nat.lt_ge_cases (N.to_nat L) (length rest)) as [Hlt|Hge];
          [exact Hlt|]. exfalso. apply Hd0. rewrite Hd. now apply skipn_all2. }
      rewrite Hs, length_firstn. lia.
    + eapply Forall_impl; [|exact (IH d0 l0 Er Hne)].
      intros o' (p & L & rest & Hsuf & H1 & H2 & H3 & H4).
      exists p, L, rest. split; [|now repeat split].
      eapply suffix_of_trans; [exact Hsuf|].
      eapply read_output_suffix; eassumption.
Qed.

(** X5.  After a successful [disassemble] every output in the object has
    a locking script of exactly the length decoded in front of it.  The loop
    itself slices [data[:ps_len]] without a check; a short slice leaves no
    byte for what follows, and the four bytes of the lock time must still be
    read. *)
Theorem disassemble_output_script_length (B : bytes) (dump_raw : bool)
    (f : option Z) (self self' : Transaction)
    (HB : B <> [])
    (Hok : disassemble (Some B) dump_raw f self = (self', Ok tt)) :
  Forall (pk_script_as_declared B) (outputs self').
Proof.
  apply disassemble_ok_inv in Hok
    as (data & v & n & d1 & d2 & m & d3 & d4 & lt
        & Hraw & Hv & Hn & Hi & Hm & Ho & Hl & H4 & ->).
  rewrite (truthy_bytes_nonempty B HB) in Hraw.
  apply (f_equal (fun o => match o with Some x => x | None => B end)) in Hraw.
  subst data. cbn [outputs].
  destruct (read_outputs (N.to_nat m) d3) as [outs r'] eqn:Ero.
  cbn [snd fst] in *. subst r'.
  assert (Hd4 : d4 <> []) by (intros ->; discriminate H4).
  assert (Hsuf : suffix_of d3 B).
  { eapply suffix_of_trans; [eapply varlen_decode_suffix; exact Hm|].
    eapply suffix_of_trans; [eapply read_inputs_suffix; exact Hi|].
    eapply suffix_of_trans; [eapply varlen_decode_suffix; exact Hn|].
    apply skipn_suffix. }
  eapply Forall_impl; [|exact (read_outputs_script_lengths _ _ _ _ Ero Hd4)].
  intros o (p & L & rest & Hp & H1 & H2 & H3 & H5).
  exists p, L, rest. split; [|now repeat split].
  eapply suffix_of_trans; eassumption.
Qed.

Lemma disassemble_output_script_length_witness :
  let self := mkTransaction None [] [] 0 None 1 None in
  let B := [x01; x00; x00; x00; x00; x01]
           ++ [x10; x27; x00; x00; x00; x00; x00; x00; x02; x51; x52]
           ++ [x00; x00; x00; x00] in
  let self' := fst (disassemble (Some B) false None self) in
  B <> [] /\
  disassemble (Some B) false None self = (self', Ok tt) /\
  outputs self' = [mkOutput 10000 [x51; x52]] /\
  Forall (pk_script_as_declared B) (outputs self').
Proof.
  intros self B self'.
  assert (HB : B <> []) by discriminate.
  assert (Hok : disassemble (Some B) false None self = (self', Ok tt))
    by reflexivity.
  split; [exact HB|]. split; [exact Hok|]. split; [reflexivity|].
  exact (disassemble_output_script_length B false None self self' HB Hok).
Defined.
(** ** The cached hash *)

Section HashProperties.

Variable sha256 : bytes -> bytes.

(** X6.  After a successful [disassemble] of [B] that keeps the raw buffer,
    [hash] returns the double SHA-256 of [B] and caches it, whatever hash
    the object had cached before the call. *)
Theorem hash_after_disassemble (B : bytes) (f : option Z)
    (self self' : Transaction)
    (HB : B <> [])
    (Hok : disassemble (Some B) false f self = (self', Ok tt)) :
  hash sha256 self'
  = (mkTransaction (Some B) (inputs self') (outputs self') (locktime self')
       (fees self') (version self') (Some (double_sha256 sha256 B)),
     Ok (double_sha256 sha256 B)).
Proof.
  apply disassemble_ok_inv in Hok
    as (data & v & n & d1 & d2 & m & d3 & d4 & lt & Hraw & _ & _ & _ & _ & _
        & _ & _ & ->).
  rewrite (truthy_bytes_nonempty B HB) in Hraw.
  apply (f_equal (fun o => match o with Some x => x | None => B end)) in Hraw.
  subst data. reflexivity.
Qed.

(** X7.  [hash] is stable: once it has returned a value, calling it again
    returns the same value and changes nothing in the object. *)
Theorem hash_stable (self s1 : Transaction) (h : bytes)
    (Hh : hash sha256 self = (s1, Ok h)) :
  hash sha256 s1 = (s1, Ok h) /\
  _hash s1 = Some h /\
  _raw s1 = _raw self /\ inputs s1 = inputs self /\
  outputs s1 = outputs self /\ locktime s1 = locktime self /\
  fees s1 = fees self /\ version s1 = version self.
Proof.
  unfold hash in *. destruct (_hash self) as [h0|] eqn:E0.
  - injection Hh as <- <-. rewrite E0. repeat split; assumption.
  - destruct (sha256_digest sha256 (_raw self)) as [d|e] eqn:Ed;
      [|discriminate].
    injection Hh as <- <-. cbn. repeat split.
Qed.

(** X8.  The cached hash can go stale.  When [disassemble] raises
    [TruncatedInput] on a new buffer [B], the raw buffer of the object is
    already [B] but the hash cached before the call is still in place, and
    [hash] goes on returning it. *)
Theorem hash_stale_after_failed_disassemble (B : bytes) (dump_raw : bool)
    (f : option Z) (self self' : Transaction) (h : bytes)
    (HB : B <> [])
    (Hcached : _hash self = Some h)
    (Hfail : disassemble (Some B) dump_raw f self
             = (self', Err TruncatedInput)) :
  _raw self' = Some B /\ hash sha256 self' = (self', Ok h).
Proof.
  pose proof (truthy_bytes_nonempty B HB) as Ht.
  assert (Hs : _raw self' = Some B /\ _hash self' = Some h).
  { disassemble_inv Hfail; cbn in *; split; congruence. }
  destruct Hs as (Hr & Hc). split; [exact Hr|].
  unfold hash. now rewrite Hc.
Qed.

(** X9.  The [raw] accessor makes [hash] usable on an object without a
    buffer: when [raw] returns [data], the object holds [data] as its raw
    buffer, a second [raw] returns it again without change, and if the
    buffer had to be assembled, [hash] now returns the double SHA-256 of
    [data]. *)
Theorem raw_then_hash (self s1 : Transaction) (data : bytes)
    (Hraw : raw self = (s1, Ok data)) :
  _raw s1 = Some data /\
  raw s1 = (s1, Ok data) /\
  (_raw self = None ->
   snd (hash sha256 s1) = Ok (double_sha256 sha256 data)).
Proof.
  unfold raw in Hraw. destruct (_raw self) as [r|] eqn:Er.
  - injection Hraw as <- <-. split; [exact Er|].
    split; [unfold raw; now rewrite Er | discriminate].
  - unfold assemble, bind, ret in Hraw.
    destruct (assemble_bytes self) as [d|e]; [|discriminate].
    cbn in Hraw. injection Hraw as <- <-.
    split; [reflexivity|]. split; [reflexivity|]. intros _. reflexivity.
Qed.

End HashProperties.

Lemma hash_after_disassemble_witness :
  let sha256 := fun data : bytes => rev data in
  let self := mkTransaction None [] [] 0 None 1 (Some [x2a]) in
  let B := [x01; x00; x00; x00; x00; x00; x00; x00; x00; x00] in
  let self' := fst (disassemble (Some B) false None self) in
  B <> [] /\
  disassemble (Some B) false None self = (self', Ok tt) /\
  hash sha256 self'
  = (mkTransaction (Some B) (inputs self') (outputs self') (locktime self')
       (fees self') (version self') (Some (double_sha256 sha256 B)),
     Ok (double_sha256 sha256 B)).
Proof.
  intros sha256 self B self'.
  assert (HB : B <> []) by discriminate.
  assert (Hok : disassemble (Some B) false None self = (self', Ok tt))
    by reflexivity.
  split; [exact HB|]. split; [exact Hok|].
  exact (hash_after_disassemble sha256 B None self self' HB Hok).
Defined.

Lemma hash_stable_witness :
  let sha256 := fun data : bytes => rev data in
  let self := mkTransaction (Some [x01; x02]) [] [] 0 None 1 None in
  let s1 := fst (hash sha256 self) in
  hash sha256 self = (s1, Ok [x01; x02]) /\
  hash sha256 s1 = (s1, Ok [x01; x02]) /\
  _hash s1 = Some [x01; x02] /\
  _raw s1 = _raw self /\ inputs s1 = inputs self /\
  outputs s1 = outputs self /\ locktime s1 = locktime self /\
  fees s1 = fees self /\ version s1 = version self.
Proof.
  intros sha256 self s1.
  assert (Hh : hash sha256 self = (s1, Ok [x01; x02])) by reflexivity.
  split; [exact Hh|].
  exact (hash_stable sha256 self s1 [x01; x02] Hh).
Defined.

Lemma hash_stale_after_failed_disassemble_witness :
  let sha256 := fun data : bytes => rev data in
  let self := mkTransaction None [] [] 0 None 1 (Some [x2a]) in
  let B := [x02; x00; x00; x00; x01] in
  let self' := fst (disassemble (Some B) false None self) in
  B <> [] /\
  _hash self = Some [x2a] /\
  disassemble (Some B) false None self = (self', Err TruncatedInput) /\
  _raw self' = Some B /\ hash sha256 self' = (self', Ok [x2a]).
Proof.
  intros sha256 self B self'.
  assert (HB : B <> []) by discriminate.
  assert (Hc : _hash self = Some [x2a]) by reflexivity.
  assert (Hf : disassemble (Some B) false None self
               = (self', Err TruncatedInput)) by reflexivity.
  split; [exact HB|]. split; [exact Hc|]. split; [exact Hf|].
  exact (hash_stale_after_failed_disassemble sha256 B false None self self'
           [x2a] HB Hc Hf).
Defined.

Lemma raw_then_hash_witness :
  let sha256 := fun data : bytes => rev data in
  let self := mkTransaction None [] [] 0 None 1 None in
  let B := [x01; x00; x00; x00; x00; x00; x00; x00; x00; x00] in
  let s1 := fst (raw self) in
  raw self = (s1, Ok B) /\
  _raw s1 = Some B /\
  raw s1 = (s1, Ok B) /\
  (_raw self = None -> snd (hash sha256 s1) = Ok (double_sha256 sha256 B)).
Proof.
  intros sha256 self B s1.
  assert (Hr : raw self = (s1, Ok B)) by reflexivity.
  split; [exact Hr|].
  exact (raw_then_hash sha256 self s1 B Hr).
Defined.
(** ** Calling [disassemble] again *)

(** The converse of [disassemble_ok_inv]: these reads make the call
    succeed, on the buffer passed or on the one the object holds. *)
Lemma disassemble_ok_intro (raw : option bytes) (dump_raw : bool)
    (f : option Z) (self : Transaction) (data : bytes) (v n : N)
    (d1 d2 : bytes) (m : N) (d3 d4 : bytes) (lt : N) :
  (if truthy_bytes raw then raw else _raw self) = Some data ->
  funpack fmt_L (firstn 4 data) = Ok v ->
  varlen_decode (skipn 4 data) = Ok (n, d1) ->
  snd (read_inputs (N.to_nat n) d1) = Ok d2 ->
  varlen_decode d2 = Ok (m, d3) ->
  snd (read_outputs (N.to_nat m) d3) = Ok d4 ->
  funpack fmt_L (firstn 4 d4) = Ok lt ->
  length d4 = 4%nat ->
  disassemble raw dump_raw f self
  = (mkTransaction (if dump_raw then None else Some data)
       (fst (read_inputs (N.to_nat n) d1))
       (fst (read_outputs (N.to_nat m) d3))
       lt (if truthy_int f then f else fees self) v None,
     Ok tt).
Proof.
  intros Hraw Hv Hn Hi Hm Ho Hl H4.
  rewrite disassemble_eq. cbv zeta.
  destruct (truthy_bytes raw); destruct (truthy_int f);
    cbn [set_raw set_fees fst _raw] in *;
    rewrite Hraw, Hv, Hn, Hi, Hm, Ho, Hl, H4;
    cbn; rewrite ?Hraw; destruct dump_raw; reflexivity.
Qed.

(** X10.  A successful [disassemble] does not depend on what the object
    held before, the fee apart: the same call on any other object succeeds
    too and leaves the same raw buffer, version, inputs, outputs and lock
    time, with the cached hash cleared.  Nothing of the previous inputs or
    outputs survives. *)
Theorem disassemble_overwrites (B : bytes) (dump_raw : bool) (f : option Z)
    (self self' : Transaction)
    (HB : B <> [])
    (Hok : disassemble (Some B) dump_raw f self = (self', Ok tt)) :
  forall t,
    disassemble (Some B) dump_raw f t
    = (mkTransaction (_raw self') (inputs self') (outputs self')
         (locktime self') (if truthy_int f then f else fees t)
         (version self') None,
       Ok tt).
Proof.
  intros t.
  apply disassemble_ok_inv in Hok
    as (data & v & n & d1 & d2 & m & d3 & d4 & lt
        & Hraw & Hv & Hn & Hi & Hm & Ho & Hl & H4 & ->).
  rewrite (truthy_bytes_nonempty B HB) in Hraw.
  cbn [_raw inputs outputs locktime version].
  apply (disassemble_ok_intro (Some B) dump_raw f t data v n d1 d2 m d3 d4 lt);
    try assumption.
  now rewrite (truthy_bytes_nonempty B HB).
Qed.

Lemma disassemble_overwrites_witness :
  let i := mkInput (repeat x22 32) 7 [x01] 9 in
  let self := mkTransaction None [] [] 0 None 1 None in
  let t := mkTransaction (Some [xee]) [i; i] [mkOutput 5 []] 77 (Some 3%Z) 4
             (Some [x2a]) in
  let B := [x01; x00; x00; x00; x00; x00; x00; x00; x00; x00] in
  let self' := fst (disassemble (Some B) false None self) in
  B <> [] /\
  disassemble (Some B) false None self = (self', Ok tt) /\
  disassemble (Some B) false None t
  = (mkTransaction (Some B) [] [] 0 (Some 3%Z) 1 None, Ok tt).
Proof.
  intros i self t B self'.
  assert (HB : B <> []) by discriminate.
  assert (Hok : disassemble (Some B) false None self = (self', Ok tt))
    by reflexivity.
  split; [exact HB|]. split; [exact Hok|].
  exact (disassemble_overwrites B false None self self' HB Hok t).
Defined.

(** X11.  [disassemble()] without arguments parses the buffer the object
    holds.  After a successful call that kept the buffer it succeeds again
    and leaves the object exactly as it is; after a successful call with
    [dump_raw=True] there is no buffer left and it raises [TypeError],
    again leaving the object as it is. *)
Theorem disassemble_again (raw : option bytes) (dump_raw : bool)
    (f : option Z) (self self' : Transaction)
    (Hok : disassemble raw dump_raw f self = (self', Ok tt)) :
  disassemble None false None self'
  = (self', if dump_raw then Err TypeError else Ok tt).
Proof.
  apply disassemble_ok_inv in Hok
    as (data & v & n & d1 & d2 & m & d3 & d4 & lt
        & Hraw & Hv & Hn & Hi & Hm & Ho & Hl & H4 & ->).
  destruct dump_raw.
  - rewrite disassemble_eq. reflexivity.
  - rewrite (disassemble_ok_intro None false None _ data v n d1 d2 m d3
               d4 lt); try assumption; reflexivity.
Qed.

Lemma disassemble_again_witness :
  let self := mkTransaction None [] [] 0 None 1 None in
  let B := [x01; x00; x00; x00; x00; x00; x00; x00; x00; x00] in
  let kept := fst (disassemble (Some B) false None self) in
  let dumped := fst (disassemble (Some B) true None self) in
  (disassemble (Some B) false None self = (kept, Ok tt) /\
   disassemble None false None kept = (kept, Ok tt)) /\
  (disassemble (Some B) true None self = (dumped, Ok tt) /\
   disassemble None false None dumped = (dumped, Err TypeError)).
Proof.
  intros self B kept dumped.
  assert (H1 : disassemble (Some B) false None self = (kept, Ok tt))
    by reflexivity.
  assert (H2 : disassemble (Some B) true None self = (dumped, Ok tt))
    by reflexivity.
  split.
  - split; [exact H1|].
    exact (disassemble_again (Some B) false None self kept H1).
  - split; [exact H2|].
    exact (disassemble_again (Some B) true None self dumped H2).
Defined.

(** ** [__init__] *)

(** X12.  Constructing a Transaction from a non-empty buffer gives what
    constructing an empty one and calling [disassemble(raw)] on it gives:
    the same object when that call succeeds, the same exception when it
    raises (the constructor then returns no object).  Empty bytes count as
    no bytes: nothing is parsed, the object has the default fields, and the
    empty buffer stays as its raw buffer. *)
Theorem init_from_bytes (B : bytes) (HB : B <> []) :
  Transaction_new (Some B)
  = match disassemble (Some B) false None (fst (Transaction_init None)) with
    | (self', Ok _) => Ok self'
    | (_, Err e) => Err e
    end /\
  Transaction_new (Some [])
  = Ok (mkTransaction (Some []) [] [] 0 None 1 None).
Proof.
  split; [|reflexivity].
  unfold Transaction_new, Transaction_init.
  rewrite (truthy_bytes_nonempty B HB). cbn [truthy_bytes set_hash fst].
  rewrite !disassemble_eq. cbv zeta.
  rewrite (truthy_bytes_nonempty B HB). reflexivity.
Qed.

Lemma init_from_bytes_witness :
  let B := [x02; x00; x00; x00; x00; x00; x07; x00; x00; x00] in
  B <> [] /\
  Transaction_new (Some B)
  = Ok (mkTransaction (Some B) [] [] 7 None 2 None) /\
  Transaction_new (Some B)
  = match disassemble (Some B) false None (fst (Transaction_init None)) with
    | (self', Ok _) => Ok self'
    | (_, Err e) => Err e
    end /\
  Transaction_new (Some [])
  = Ok (mkTransaction (Some []) [] [] 0 None 1 None).
Proof.
  intros B.
  assert (HB : B <> []) by discriminate.
  split; [exact HB|]. split; [reflexivity|].
  exact (init_from_bytes B HB).
Defined.

(** ** [is_coinbase] on a parsed transaction *)

(** X13.  On an object filled by a successful [disassemble] of [B],
    [is_coinbase] depends only on the bytes that follow the version: it
    raises [InvalidState] when the input count is zero, and otherwise tells
    whether the 32 bytes right after the input count are all zero. *)
Theorem is_coinbase_after_disassemble (B : bytes) (dump_raw : bool)
    (f : option Z) (self self' : Transaction) (n : N) (d1 : bytes)
    (Hok : disassemble (Some B) dump_raw f self = (self', Ok tt))
    (Hcount : varlen_decode (skipn 4 B) = Ok (n, d1)) :
  is_coinbase self'
  = if n =? 0 then Err InvalidState
    else Ok (bytes_eqb (firstn 32 d1) (repeat x00 32)).
Proof.
  pose proof (disassemble_inputs_read B dump_raw f self n d1 Hcount) as Hin.
  rewrite Hok in Hin. cbn [fst] in Hin.
  assert (HB : B <> []).
  { apply (skipn_nonempty 4). eapply varlen_decode_nonempty; exact Hcount. }
  apply disassemble_ok_inv in Hok
    as (data & v & n' & d1' & d2 & m & d3 & d4 & lt
        & Hraw & _ & Hn & Hi & _).
  rewrite (truthy_bytes_nonempty B HB) in Hraw.
  apply (f_equal (fun o => match o with Some x => x | None => B end)) in Hraw.
  subst data. rewrite Hcount in Hn. injection Hn as <- <-.
  unfold is_coinbase. rewrite Hin.
  destruct (N.eqb_spec n 0) as [->|Hn0]; [reflexivity|].
  destruct (N.to_nat n) as [|k] eqn:Ek; [lia|].
  cbn [read_inputs] in *.
  destruct (read_input d1) as [[i d0]|e] eqn:E; [|discriminate].
  destruct (read_inputs k d0) as [l r]. cbn [fst].
  destruct (read_input_script_length _ _ _ E) as (_ & _ & -> & _).
  reflexivity.
Qed.

Lemma is_coinbase_after_disassemble_witness :
  let self := mkTransaction None [] [] 0 None 1 None in
  let d1 := repeat x00 32
            ++ [xff; xff; xff; xff; x01; x51; xff; xff; xff; xff]
            ++ [x00; x00; x00; x00; x00] in
  let B := [x01; x00; x00; x00; x01] ++ d1 in
  let self' := fst (disassemble (Some B) false None self) in
  disassemble (Some B) false None self = (self', Ok tt) /\
  varlen_decode (skipn 4 B) = Ok (1, d1) /\
  is_coinbase self' = Ok true.
Proof.
  intros self d1 B self'.
  assert (Hok : disassemble (Some B) false None self = (self', Ok tt))
    by reflexivity.
  assert (Hc : varlen_decode (skipn 4 B) = Ok (1, d1)) by reflexivity.
  split; [exact Hok|]. split; [exact Hc|].
  exact (is_coinbase_after_disassemble B false None self self' 1 d1 Hok Hc).
Defined.
(** ** Hexadecimal display *)

Lemma unhex_hex_digit (n : N) : n < 16 -> unhex_digit (hex_digit n) = n.
Proof.
  intros Hn. unfold unhex_digit, hex_digit.
  destruct (N.ltb_spec n 10) as [H|H].
  - rewrite to_N_byte_of_N by lia.
    destruct (N.ltb_spec (48 + n) 58); lia.
  - rewrite to_N_byte_of_N by lia.
    destruct (N.ltb_spec (87 + n) 58); lia.
Qed.

Lemma hex_byte_inj (a b : byte) : hex_byte a = hex_byte b -> a = b.
Proof.
  unfold hex_byte. intros H.
  assert (H1 : hex_digit (Byte.to_N a / 16) = hex_digit (Byte.to_N b / 16))
    by congruence.
  assert (H2 : hex_digit (Byte.to_N a mod 16) = hex_digit (Byte.to_N b mod 16))
    by congruence.
  pose proof (to_N_lt_256 a) as La. pose proof (to_N_lt_256 b) as Lb.
  apply (f_equal unhex_digit) in H1, H2.
  rewrite !unhex_hex_digit in H1, H2;
    try (apply N.mod_lt; lia);
    try (apply N.Div0.div_lt_upper_bound; lia).
  apply to_N_inj.
  rewrite (N.div_mod (Byte.to_N a) 16), (N.div_mod (Byte.to_N b) 16) by lia.
  now rewrite H1, H2.
Qed.

Lemma hexlify_inj (a b : bytes) : hexlify a = hexlify b -> a = b.
Proof.
  revert b. induction a as [|x a IH]; intros [|y b] H; cbn in H;
    try discriminate; [reflexivity|].
  injection H as H1 H2 H3.
  f_equal; [apply hex_byte_inj; unfold hex_byte; congruence | now apply IH].
Qed.

Lemma length_hexlify (a : bytes) : length (hexlify a) = (2 * length a)%nat.
Proof.
  induction a as [|x a IH]; [reflexivity|].
  change (hexlify (x :: a)) with (hex_byte x ++ hexlify a).
  rewrite length_app, IH. cbn [hex_byte length]. lia.
Qed.

Section ViewProperties.

Variable sha256 : bytes -> bytes.

Lemma lehexhash_inv (self s1 : Transaction) (x : bytes) :
  lehexhash sha256 self = (s1, Ok x) ->
  exists h, hash sha256 self = (s1, Ok h) /\ x = hexlify (rev h).
Proof.
  unfold lehexhash, bind, ret.
  destruct (hash sha256 self) as [s' [h|e]]; [|discriminate].
  intros H. injection H as <- <-. now exists h.
Qed.

Lemma behexhash_inv (self s1 : Transaction) (x : bytes) :
  behexhash sha256 self = (s1, Ok x) ->
  exists h, hash sha256 self = (s1, Ok h) /\ x = hexlify h.
Proof.
  unfold behexhash, bind, ret.
  destruct (hash sha256 self) as [s' [h|e]]; [|discriminate].
  intros H. injection H as <- <-. now exists h.
Qed.

(** X14.  The two hexadecimal forms identify the hash: if [lehexhash]
    returns the same string on two objects, [hash] returns the same bytes
    on both, and the string has two characters per byte of the hash.  The
    same holds for [behexhash]. *)
Theorem hex_hash_identifies_hash (s t s1 t1 : Transaction) (x : bytes)
    (Hsame :
       (lehexhash sha256 s = (s1, Ok x) /\ lehexhash sha256 t = (t1, Ok x)) \/
       (behexhash sha256 s = (s1, Ok x) /\ behexhash sha256 t = (t1, Ok x))) :
  exists h,
    snd (hash sha256 s) = Ok h /\ snd (hash sha256 t) = Ok h /\
    length x = (2 * length h)%nat.
Proof.
  destruct Hsame as [(Hs & Ht) | (Hs & Ht)].
  - apply lehexhash_inv in Hs as (h & Hh & ->).
    apply lehexhash_inv in Ht as (h' & Hh' & E).
    apply hexlify_inj in E. apply (f_equal (@rev byte)) in E.
    rewrite !rev_involutive in E. subst h'.
    exists h. rewrite Hh, Hh'. repeat split.
    now rewrite length_hexlify, length_rev.
  - apply behexhash_inv in Hs as (h & Hh & ->).
    apply behexhash_inv in Ht as (h' & Hh' & E).
    apply hexlify_inj in E. subst h'.
    exists h. rewrite Hh, Hh'. repeat split. apply length_hexlify.
Qed.

(** X15.  [to_dict] on an object filled by a successful [disassemble] of
    [B].  If the raw buffer was kept, it returns the views of the inputs
    and outputs, [B] in hexadecimal, the lock time, the version and the
    byte-reversed double SHA-256 of [B] in hexadecimal, and the only change
    to the object is that this hash is now cached.  If the buffer was
    dropped with [dump_raw=True], it raises [TypeError] and leaves the
    object unchanged: it reads [self._raw], not the [raw] accessor. *)
Theorem to_dict_after_disassemble (B : bytes) (dump_raw : bool)
    (f : option Z) (self self' : Transaction)
    (HB : B <> [])
    (Hok : disassemble (Some B) dump_raw f self = (self', Ok tt)) :
  to_dict sha256 self'
  = if dump_raw then (self', Err TypeError)
    else
      (mkTransaction (Some B) (inputs self') (outputs self')
         (locktime self') (fees self') (version self')
         (Some (double_sha256 sha256 B)),
       Ok (PyDict
             [("inputs"%string, PyList (map input_view (inputs self')));
              ("outputs"%string, PyList (map output_view (outputs self')));
              ("data"%string, PyBytes (hexlify B));
              ("locktime"%string, PyInt (locktime self'));
              ("version"%string, PyInt (version self'));
              ("hash"%string,
               PyBytes (hexlify (rev (double_sha256 sha256 B))))])).
Proof.
  apply disassemble_ok_inv in Hok
    as (data & v & n & d1 & d2 & m & d3 & d4 & lt & Hraw & _ & _ & _ & _ & _
        & _ & _ & ->).
  rewrite (truthy_bytes_nonempty B HB) in Hraw.
  apply (f_equal (fun o => match o with Some x => x | None => B end)) in Hraw.
  subst data. destruct dump_raw; reflexivity.
Qed.

End ViewProperties.

Lemma hex_hash_identifies_hash_witness :
  let sha256 := fun data : bytes => rev data in
  let s := mkTransaction (Some [x01; xab]) [] [] 0 None 1 None in
  let t := mkTransaction (Some [x01; xab]) [] [] 5 None 2 None in
  let x := hexlify [xab; x01] in
  lehexhash sha256 s = (fst (lehexhash sha256 s), Ok x) /\
  lehexhash sha256 t = (fst (lehexhash sha256 t), Ok x) /\
  exists h,
    snd (hash sha256 s) = Ok h /\ snd (hash sha256 t) = Ok h /\
    length x = (2 * length h)%nat.
Proof.
  intros sha256 s t x.
  assert (Hs : lehexhash sha256 s = (fst (lehexhash sha256 s), Ok x))
    by reflexivity.
  assert (Ht : lehexhash sha256 t = (fst (lehexhash sha256 t), Ok x))
    by reflexivity.
  split; [exact Hs|]. split; [exact Ht|].
  exact (hex_hash_identifies_hash sha256 s t _ _ x (or_introl (conj Hs Ht))).
Defined.

Lemma to_dict_after_disassemble_witness :
  let sha256 := fun data : bytes => rev data in
  let self := mkTransaction None [] [] 0 None 1 None in
  let B := [x01; x00; x00; x00; x00; x00; x00; x00; x00; x00] in
  let kept := fst (disassemble (Some B) false None self) in
  let dumped := fst (disassemble (Some B) true None self) in
  B <> [] /\
  disassemble (Some B) false None self = (kept, Ok tt) /\
  disassemble (Some B) true None self = (dumped, Ok tt) /\
  snd (to_dict sha256 kept)
  = Ok (PyDict
          [("inputs"%string, PyList []);
           ("outputs"%string, PyList []);
           ("data"%string, PyBytes (hexlify B));
           ("locktime"%string, PyInt 0);
           ("version"%string, PyInt 1);
           ("hash"%string, PyBytes (hexlify (rev (double_sha256 sha256 B))))])
  /\
  to_dict sha256 dumped = (dumped, Err TypeError).
Proof.
  intros sha256 self B kept dumped.
  assert (HB : B <> []) by discriminate.
  assert (H1 : disassemble (Some B) false None self = (kept, Ok tt))
    by reflexivity.
  assert (H2 : disassemble (Some B) true None self = (dumped, Ok tt))
    by reflexivity.
  split; [exact HB|]. split; [exact H1|]. split; [exact H2|]. split.
  - exact (f_equal snd
             (to_dict_after_disassemble sha256 B false None self kept HB H1)).
  - exact (to_dict_after_disassemble sha256 B true None self dumped HB H2).
Defined.
(** ** The [raw] accessor after [disassemble] *)

(** The serialisation of an object read from a buffer with minimal
    varints is that buffer. *)
Lemma assemble_bytes_canonical (B : bytes) (dump_raw : bool) (f : option Z)
    (self self' : Transaction) :
  disassemble (Some B) dump_raw f self = (self', Ok tt) ->
  canonical_varints B = true ->
  assemble_bytes self' = Ok B.
Proof.
  intros Hok Hcanon.
  assert (HB : B <> []) by (intros ->; discriminate Hcanon).
  apply disassemble_ok_inv in Hok
    as (data & v & n & d1 & d2 & m & d3 & d4 & lt
        & Hraw & Hv & Hn & Hi & Hm & Ho & Hl & H4 & ->).
  rewrite (truthy_bytes_nonempty B HB) in Hraw.
  apply (f_equal (fun o => match o with Some x => x | None => B end)) in Hraw.
  subst data.
  apply (funpack_slice_inv fmt_L 0) in Hv as (Hlen & -> & Hl4).
  apply (funpack_slice_inv fmt_L 0) in Hl as (_ & -> & _).
  change (skipn 0 B) with B in *. change (skipn 0 d4) with d4 in *.
  cbn [calcsize] in *.
  rewrite (firstn_all2 (n := 4) d4) by lia.
  unfold canonical_varints in Hcanon.
  apply andb_prop in Hcanon as (Hc1 & Hcanon). rewrite Hn in Hcanon.
  apply andb_prop in Hcanon as (Hc2 & Hcanon). rewrite Hi in Hcanon.
  apply andb_prop in Hcanon as (Hc3 & Hc4). rewrite Hm in Hc4.
  destruct (read_inputs (N.to_nat n) d1) as [ins r] eqn:Eri.
  destruct (read_outputs (N.to_nat m) d3) as [outs r'] eqn:Ero.
  cbn [snd fst] in *. subst r r'.
  assert (Hd4 : d4 <> []) by (intros ->; discriminate H4).
  destruct (canonical_varint_inv _ _ _ Hc1 Hn) as (en & Hen & E1).
  destruct (canonical_varint_inv _ _ _ Hc3 Hm) as (em & Hem & E3).
  destruct (read_inputs_assemble _ _ _ _ Eri Hc2) as (wi & E2 & Hwi).
  destruct (read_outputs_assemble _ _ _ _ Ero Hd4 Hc4) as (wo & E4 & Hwo).
  assert (Hbytes : B = firstn 4 B ++ en ++ wi ++ em ++ wo ++ d4).
  { rewrite <- (firstn_skipn 4 B) at 1. f_equal.
    rewrite E1, E2, E3, E4. now repeat rewrite <- app_assoc. }
  unfold assemble_bytes, rbind. cbn [version inputs outputs locktime].
  rewrite (pack_decode fmt_L (firstn 4 B) Hl4).
  rewrite (read_inputs_length _ _ _ _ Eri), N2Nat.id, Hen, Hwi.
  rewrite (read_outputs_length _ _ _ _ Ero), N2Nat.id, Hem, Hwo.
  rewrite (pack_decode fmt_L d4 H4). f_equal.
  repeat rewrite <- app_assoc. symmetry. exact Hbytes.
Qed.

Section RawProperties.

Variable sha256 : bytes -> bytes.

(** X16.  For a buffer [B] with minimal varints that [disassemble]
    accepts, the [raw] accessor returns [B] whether or not the call dropped
    the buffer ([dump_raw]): it is either still held or assembled again.
    After [raw], the object holds [B], and [hash] returns the double
    SHA-256 of [B]. *)
Theorem raw_after_disassemble (B : bytes) (dump_raw : bool) (f : option Z)
    (self self' : Transaction)
    (Hok : disassemble (Some B) dump_raw f self = (self', Ok tt))
    (Hcanon : canonical_varints B = true) :
  raw self'
  = (mkTransaction (Some B) (inputs self') (outputs self') (locktime self')
       (fees self') (version self') None,
     Ok B) /\
  snd (hash sha256 (fst (raw self'))) = Ok (double_sha256 sha256 B).
Proof.
  pose proof (assemble_bytes_canonical B dump_raw f self self' Hok Hcanon)
    as Hasm.
  assert (HB : B <> []) by (intros ->; discriminate Hcanon).
  assert (Hr : raw self'
    = (mkTransaction (Some B) (inputs self') (outputs self')
         (locktime self') (fees self') (version self') None, Ok B)).
  { apply disassemble_ok_inv in Hok
      as (data & v & n & d1 & d2 & m & d3 & d4 & lt & Hraw & _ & _ & _ & _
          & _ & _ & _ & ->).
    rewrite (truthy_bytes_nonempty B HB) in Hraw.
    apply (f_equal (fun o => match o with Some x => x | None => B end))
      in Hraw.
    subst data. destruct dump_raw.
    - unfold raw. cbn [_raw]. unfold assemble, bind, ret. rewrite Hasm.
      reflexivity.
    - reflexivity. }
  split; [exact Hr|]. rewrite Hr. reflexivity.
Qed.

End RawProperties.

Lemma raw_after_disassemble_witness :
  let sha256 := fun data : bytes => rev data in
  let self := mkTransaction None [] [] 0 None 1 None in
  let B := [x02; x00; x00; x00; x01] ++ repeat x11 32
           ++ [x03; x00; x00; x00; x02; xaa; xbb; xff; xff; xff; xff]
           ++ [x01; x10; x27; x00; x00; x00; x00; x00; x00; x01; x51]
           ++ [x00; x00; x00; x00] in
  let self' := fst (disassemble (Some B) true None self) in
  disassemble (Some B) true None self = (self', Ok tt) /\
  canonical_varints B = true /\
  _raw self' = None /\
  raw self'
  = (mkTransaction (Some B) (inputs self') (outputs self') (locktime self')
       (fees self') (version self') None,
     Ok B) /\
  snd (hash sha256 (fst (raw self'))) = Ok (double_sha256 sha256 B).
Proof.
  intros sha256 self B self'.
  assert (Hok : disassemble (Some B) true None self = (self', Ok tt))
    by reflexivity.
  assert (Hc : canonical_varints B = true) by reflexivity.
  split; [exact Hok|]. split; [exact Hc|]. split; [reflexivity|].
  exact (raw_after_disassemble sha256 B true None self self' Hok Hc).
Defined.
(** ** Truncated buffers, and how short a transaction can be *)

(** On a non-empty buffer the call either runs short in some read, or
    performs all its reads and reaches the final assertion. *)
Lemma disassemble_truncated_or_reads (data : bytes) (dump_raw : bool)
    (f : option Z) (self : Transaction) :
  data <> [] ->
  snd (disassemble (Some data) dump_raw f self) = Err TruncatedInput \/
  exists v n d1 ins d2 m d3 outs d4 lt,
    funpack fmt_L (firstn 4 data) = Ok v /\
    varlen_decode (skipn 4 data) = Ok (n, d1) /\
    read_inputs (N.to_nat n) d1 = (ins, Ok d2) /\
    varlen_decode d2 = Ok (m, d3) /\
    read_outputs (N.to_nat m) d3 = (outs, Ok d4) /\
    funpack fmt_L (firstn 4 d4) = Ok lt.
Proof.
  intros Hne. rewrite disassemble_eq. cbv zeta.
  rewrite (truthy_bytes_nonempty data Hne).
  assert (Hraw : forall s, _raw (fst (set_raw (Some data) s)) = Some data)
    by reflexivity.
  destruct (truthy_int f); rewrite Hraw;
  (destruct (funpack fmt_L (firstn 4 data)) as [v|e] eqn:Ev;
     [|left; cbn; f_equal; eapply funpack_err; eassumption];
   destruct (varlen_decode (skipn 4 data)) as [[n d1]|e] eqn:En;
     [|left; cbn; f_equal; eapply varlen_decode_err; eassumption];
   destruct (read_inputs (N.to_nat n) d1) as [ins [d2|e]] eqn:Ei;
     [|left; cbn; f_equal; apply (read_inputs_err (N.to_nat n) d1);
       now rewrite Ei];
   cbn [snd];
   destruct (varlen_decode d2) as [[m d3]|e] eqn:Em;
     [|left; cbn; f_equal; eapply varlen_decode_err; eassumption];
   destruct (read_outputs (N.to_nat m) d3) as [outs [d4|e]] eqn:Eo;
     [|left; cbn; f_equal; apply (read_outputs_err (N.to_nat m) d3);
       now rewrite Eo];
   cbn [snd];
   destruct (funpack fmt_L (firstn 4 d4)) as [lt|e] eqn:El;
     [|left; cbn; f_equal; eapply funpack_err; eassumption];
   right; exists v, n, d1, ins, d2, m, d3, outs, d4, lt; repeat split;
     assumption).
Qed.

(** X17.  Truncation: every proper non-empty prefix of a buffer that
    [disassemble] accepts is rejected with [TruncatedInput]. *)
Theorem disassemble_truncated_prefix (P extra : bytes) (dump_raw : bool)
    (f : option Z) (self self' : Transaction)
    (HP : P <> [])
    (Hextra : extra <> [])
    (Hok : disassemble (Some (P ++ extra)) dump_raw f self = (self', Ok tt)) :
  forall dump_raw' f' self0,
    snd (disassemble (Some P) dump_raw' f' self0) = Err TruncatedInput.
Proof.
  intros dump_raw' f' self0.
  destruct (disassemble_truncated_or_reads P dump_raw' f' self0 HP)
    as [Ht | (v & n & d1 & ins & d2 & m & d3 & outs & d4 & lt
              & Hv & Hn & Hi & Hm & Ho & Hl)]; [exact Ht|].
  exfalso.
  pose proof (funpack_ok_length _ _ _ Hv) as Lv.
  pose proof (funpack_ok_length _ _ _ Hl) as Ll.
  rewrite length_firstn in Lv, Ll. cbn [calcsize] in Lv, Ll.
  assert (Hd4 : d4 <> []) by (intros ->; cbn in Ll; lia).
  assert (Hneq : (length (d4 ++ extra) =? 4)%nat = false).
  { rewrite length_app. apply Nat.eqb_neq.
    destruct extra; [congruence | cbn [length]; lia]. }
  pose proof (disassemble_to_assert (P ++ extra) dump_raw f self
                v n (d1 ++ extra) (d2 ++ extra) m (d3 ++ extra)
                (d4 ++ extra) lt) as Hrun.
  rewrite Hneq in Hrun.
  pose proof (f_equal snd Hok) as Hsnd. cbn [snd] in Hsnd.
  assert (Hbad : @Ok unit tt = Err MalformedTransaction).
  { etransitivity; [symmetry; exact Hsnd|]. apply Hrun.
    - destruct P; [congruence | discriminate].
    - rewrite firstn_app_l by lia. exact Hv.
    - rewrite skipn_app_l by lia. now apply varlen_decode_extend.
    - now rewrite (read_inputs_extend _ _ _ _ extra Hi).
    - now apply varlen_decode_extend.
    - now rewrite (read_outputs_extend _ _ _ _ extra Ho Hd4).
    - rewrite firstn_app_l by lia. exact Hl. }
  discriminate Hbad.
Qed.

Lemma disassemble_truncated_prefix_witness :
  let self := mkTransaction None [] [] 0 None 1 None in
  let P := [x01; x00; x00; x00; x00; x00; x00; x00] in
  let extra := [x00; x00] in
  P <> [] /\ extra <> [] /\
  disassemble (Some (P ++ extra)) false None self
  = (fst (disassemble (Some (P ++ extra)) false None self), Ok tt) /\
  forall dump_raw' f' self0,
    snd (disassemble (Some P) dump_raw' f' self0) = Err TruncatedInput.
Proof.
  intros self P extra.
  assert (HP : P <> []) by discriminate.
  assert (He : extra <> []) by discriminate.
  assert (Hok : disassemble (Some (P ++ extra)) false None self
                = (fst (disassemble (Some (P ++ extra)) false None self),
                   Ok tt)) by reflexivity.
  split; [exact HP|]. split; [exact He|]. split; [exact Hok|].
  exact (disassemble_truncated_prefix P extra false None self _ HP He Hok).
Defined.

Lemma read_inputs_consumes (n : nat) (d : bytes) (l : list Input)
    (d' : bytes) :
  read_inputs n d = (l, Ok d') ->
  (length d' + min_input_size * n <= length d)%nat.
Proof.
  revert d l. induction n as [|n IH]; intros d l H; cbn [read_inputs] in H.
  - injection H as _ <-. lia.
  - destruct (read_input d) as [[i d0]|] eqn:E; [|discriminate].
    destruct (read_inputs n d0) as [l0 [d1|]] eqn:Er; [|discriminate].
    injection H as _ <-.
    apply read_input_consumes in E. specialize (IH d0 l0 Er). lia.
Qed.

Lemma read_outputs_consumes (n : nat) (d : bytes) (l : list Output)
    (d' : bytes) :
  read_outputs n d = (l, Ok d') ->
  (length d' + min_output_size * n <= length d)%nat.
Proof.
  revert d l. induction n as [|n IH]; intros d l H; cbn [read_outputs] in H.
  - injection H as _ <-. lia.
  - destruct (read_output d) as [[o d0]|] eqn:E; [|discriminate].
    destruct (read_outputs n d0) as [l0 [d1|]] eqn:Er; [|discriminate].
    injection H as _ <-.
    apply read_output_consumes in E. specialize (IH d0 l0 Er). lia.
Qed.

(** X18.  A buffer that [disassemble] accepts has at least 10 bytes, plus
    41 for every input and 9 for every output it holds (version, two
    counts and lock time; hash, index, script length and sequence number;
    amount and script length). *)
Theorem disassemble_min_length (B : bytes) (dump_raw : bool) (f : option Z)
    (self self' : Transaction)
    (HB : B <> [])
    (Hok : disassemble (Some B) dump_raw f self = (self', Ok tt)) :
  (10 + min_input_size * length (inputs self')
      + min_output_size * length (outputs self') <= length B)%nat.
Proof.
  apply disassemble_ok_inv in Hok
    as (data & v & n & d1 & d2 & m & d3 & d4 & lt
        & Hraw & Hv & Hn & Hi & Hm & Ho & Hl & H4 & ->).
  rewrite (truthy_bytes_nonempty B HB) in Hraw.
  apply (f_equal (fun o => match o with Some x => x | None => B end)) in Hraw.
  subst data. cbn [inputs outputs].
  destruct (read_inputs (N.to_nat n) d1) as [ins r] eqn:Eri.
  destruct (read_outputs (N.to_nat m) d3) as [outs r'] eqn:Ero.
  cbn [snd fst] in *. subst r r'.
  pose proof (read_inputs_consumes _ _ _ _ Eri) as Ci.
  pose proof (read_outputs_consumes _ _ _ _ Ero) as Co.
  rewrite (read_inputs_length _ _ _ _ Eri), (read_outputs_length _ _ _ _ Ero).
  apply varlen_decode_inv in Hn as (en & En & Len & _).
  apply varlen_decode_inv in Hm as (em & Em & Lem & _).
  apply (funpack_slice_inv fmt_L 0) in Hv as (Lv & _).
  cbn [calcsize] in Lv.
  apply (f_equal (@length byte)) in En, Em.
  rewrite length_skipn, length_app in En. rewrite length_app in Em.
  lia.
Qed.

Lemma disassemble_min_length_witness :
  let self := mkTransaction None [] [] 0 None 1 None in
  let B := [x02; x00; x00; x00; x01] ++ repeat x11 32
           ++ [x03; x00; x00; x00; x02; xaa; xbb; xff; xff; xff; xff]
           ++ [x01; x10; x27; x00; x00; x00; x00; x00; x00; x01; x51]
           ++ [x00; x00; x00; x00] in
  let self' := fst (disassemble (Some B) false None self) in
  B <> [] /\
  disassemble (Some B) false None self = (self', Ok tt) /\
  (10 + min_input_size * length (inputs self')
      + min_output_size * length (outputs self') <= length B)%nat.
Proof.
  intros self B self'.
  assert (HB : B <> []) by discriminate.
  assert (Hok : disassemble (Some B) false None self = (self', Ok tt))
    by reflexivity.
  split; [exact HB|]. split; [exact Hok|].
  exact (disassemble_min_length B false None self self' HB Hok).
Defined.
